(** * The Match engine of Axelrod (axelrod/match.py)

    A shallow embedding of [axelrod.match]: the function [is_stochastic] and
    the class [Match] (constructor, the [players] property, [_stochastic],
    [_cache_update_required], [play], [winner], [__len__]).

    Python objects that [Match] only borrows, the players and the
    deterministic caches, live in a shared store (the [World]); every call
    that [Match] makes on a collaborator is also appended to a call log, so
    that statements such as "the players are not invoked" can be read off the
    log.  A raised Python exception is an explicit result, and the store it
    leaves behind is kept.

    The methods of [Stalker] (axelrod/strategies/stalker.py) are embedded in
    the module [Stalker] below. *)

From Stdlib Require Import QArith Lqa.
From stdpp Require Import gmap strings list fin_maps.
From Equations Require Import Equations.

Local Open Scope Z_scope.

(** ** Data *)

(** [axelrod.actions.Actions]: the two moves. *)
Inductive Action : Type := C | D.

#[global] Instance Action_eq_dec : EqDecision Action.
Proof. solve_decision. Defined.

(** One entry of an Action Record, and the record itself:
    [List[Tuple[Action, Action]]]. *)
Abbreviation Interaction := (Action * Action)%type.
Abbreviation Interactions := (list (Action * Action)).

(** Python truthiness of a number: everything but zero. *)
Definition Q_truthy (q : Q) : bool := negb (Qeq_bool q 0).

(** Modelled from the spec: the class [axelrod.game.Game] is not part of the
    sources at hand.  "An immutable payoff table mapping an ordered pair of
    actions to a pair of numeric scores", with the four canonical payoff
    values Reward, Punishment, Sucker, Temptation. *)
Record Game : Type := mkGame { R : Q; P : Q; S : Q; T : Q }.

Definition RPST (g : Game) : Q * Q * Q * Q := (R g, P g, S g, T g).

Definition score (g : Game) (pair : Interaction) : Q * Q :=
  match pair with
  | (C, C) => (R g, R g)
  | (D, D) => (P g, P g)
  | (C, D) => (S g, T g)
  | (D, C) => (T g, S g)
  end.

(** [Game()] with no argument: the standard payoff table. *)
Definition default_Game : Game := mkGame 3 1 0 5.

(** Players are Python objects; a [PlayerId] is the identity of one. *)
Definition PlayerId : Type := nat.

(** Values that occur in a [match_attributes] dictionary. *)
Inductive AttrVal : Type :=
| AInt (z : Z)
| ANum (q : Q)
| AGame (g : Game).

(** A [match_attributes] dictionary, keyed by attribute name. *)
Abbreviation Attrs := (gmap string AttrVal).

(** The deterministic cache is keyed by [(player, player, turns)]. *)
Abbreviation CacheKey := (PlayerId * PlayerId * Z)%type.

(** Modelled from the spec: the class [DeterministicCache] is not part of the
    sources at hand.  "A mutable-or-frozen key/value store mapping
    (player_identity_1, player_identity_2, turn_count) to a previously
    observed action record; supports membership test, read, write, and a flag
    indicating whether writes are currently permitted." *)
Record DeterministicCache : Type := mkCache {
  mutable : bool;
  entries : gmap CacheKey Interactions
}.

(** [DeterministicCache()]: empty, and it accepts writes. *)
Definition new_DeterministicCache : DeterministicCache := mkCache true ∅.

#[global] Instance DeterministicCache_inhabited : Inhabited DeterministicCache :=
  populate new_DeterministicCache.

Definition CacheId : Type := nat.

(** Modelled from the spec: the class [axelrod.player.Player] is not part of
    the sources at hand.  The interface below is the "Player contract": a
    history, [reset()], [play(opponent, noise)] which acts on both players,
    [set_match_attributes] (keyword arguments) and the [stochastic] entry of the
    classifier, which is "per-player static metadata".  [PlayerHeap] holds
    the mutable state of all players (and whatever source of randomness they
    draw from). *)
Class PlayerOps : Type := {
  PlayerHeap : Type;
  Player_history : PlayerId → PlayerHeap → list Action;
  Player_classifier_stochastic : PlayerId → bool;
  Player_reset : PlayerId → PlayerHeap → PlayerHeap;
  Player_play : PlayerId → PlayerId → Q → PlayerHeap → PlayerHeap;
  Player_set_match_attributes : PlayerId → Attrs → PlayerHeap → PlayerHeap
}.

(** ** Calls on collaborators, as they are logged *)
Inductive Event : Type :=
| EvSetMatchAttributes (p : PlayerId) (attrs : Attrs)
| EvReset (p : PlayerId)
| EvPlay (p opponent : PlayerId) (noise : Q)
| EvCacheNew (c : CacheId)
| EvCacheMutable (c : CacheId)
| EvCacheContains (c : CacheId) (k : CacheKey)
| EvCacheGet (c : CacheId) (k : CacheKey)
| EvCacheSet (c : CacheId) (k : CacheKey) (r : Interactions).

(** Python exceptions that [Match] itself can raise. *)
Inductive Exn : Type := IndexError | KeyError.

Inductive Result (A : Type) : Type :=
| Ok (a : A)
| Raise (e : Exn).
Arguments Ok {A} a.
Arguments Raise {A} e.

Section Engine.
Context `{PO : PlayerOps}.

(** The store shared by all matches. *)
Record World : Type := mkWorld {
  heap : PlayerHeap;
  caches : gmap CacheId DeterministicCache;
  trace : list Event
}.

(** A computation that reads and writes the store and may raise. *)
Definition M (A : Type) : Type := World → Result A * World.

Definition ret {A} (a : A) : M A := λ w, (Ok a, w).
Definition raise {A} (e : Exn) : M A := λ w, (Raise e, w).
Definition bind {A B} (m : M A) (k : A → M B) : M B :=
  λ w, match m w with
       | (Ok a, w') => k a w'
       | (Raise e, w') => (Raise e, w')
       end.

#[global] Instance M_ret : MRet M := @ret.
#[global] Instance M_bind : MBind M := λ A B k m, bind m k.

(** Reading and writing the store. *)
Definition get_world : M World := λ w, (Ok w, w).
Definition log (e : Event) : M unit :=
  λ w, (Ok tt, mkWorld (heap w) (caches w) (trace w ++ [e])).
Definition update_heap (f : PlayerHeap → PlayerHeap) : M unit :=
  λ w, (Ok tt, mkWorld (f (heap w)) (caches w) (trace w)).
Definition update_caches
    (f : gmap CacheId DeterministicCache → gmap CacheId DeterministicCache) : M unit :=
  λ w, (Ok tt, mkWorld (heap w) (f (caches w)) (trace w)).

(** [seq[i]] on a Python list or tuple, for an index that is not negative. *)
Definition index {A} (l : list A) (i : nat) : M A :=
  match l !! i with
  | Some x => ret x
  | None => raise IndexError
  end.

(** *** Calls on players *)

Definition call_set_match_attributes (p : PlayerId) (attrs : Attrs) : M unit :=
  _ ← log (EvSetMatchAttributes p attrs);
  update_heap (Player_set_match_attributes p attrs).

Definition call_reset (p : PlayerId) : M unit :=
  _ ← log (EvReset p);
  update_heap (Player_reset p).

Definition call_play (p opponent : PlayerId) (noise : Q) : M unit :=
  _ ← log (EvPlay p opponent noise);
  update_heap (Player_play p opponent noise).

(** [p.history] *)
Definition read_history (p : PlayerId) : M (list Action) :=
  w ← get_world; mret (Player_history p (heap w)).

(** *** Calls on a deterministic cache *)

(** [DeterministicCache()]: a new object, under an identity not yet in use. *)
Definition cache_new : M CacheId :=
  w ← get_world;
  let c := fresh (dom (caches w)) in
  _ ← log (EvCacheNew c);
  _ ← update_caches (insert c new_DeterministicCache);
  mret c.

(** [cache.mutable] *)
Definition cache_mutable (c : CacheId) : M bool :=
  _ ← log (EvCacheMutable c);
  w ← get_world; mret (mutable (caches w !!! c)).

(** [key in cache] *)
Definition cache_contains (c : CacheId) (k : CacheKey) : M bool :=
  _ ← log (EvCacheContains c k);
  w ← get_world; mret (bool_decide (is_Some (entries (caches w !!! c) !! k))).

(** [cache[key]] *)
Definition cache_getitem (c : CacheId) (k : CacheKey) : M Interactions :=
  _ ← log (EvCacheGet c k);
  w ← get_world;
  match entries (caches w !!! c) !! k with
  | Some r => mret r
  | None => raise KeyError
  end.

(** [cache[key] = r] *)
Definition cache_setitem (c : CacheId) (k : CacheKey) (r : Interactions) : M unit :=
  _ ← log (EvCacheSet c k r);
  update_caches (λ cs, <[c := mkCache (mutable (cs !!! c))
                                      (<[k := r]> (entries (cs !!! c)))]> cs).

(** ** match.py *)

(** The value of [noise or any(...)]: the noise itself when it is truthy,
    the boolean otherwise. *)
Inductive FloatOrBool : Type :=
| VFloat (q : Q)
| VBool (b : bool).

Definition truthy (v : FloatOrBool) : bool :=
  match v with
  | VFloat q => Q_truthy q
  | VBool b => b
  end.

(** [any(p.classifier['stochastic'] for p in players)] *)
Definition any_stochastic (players : list PlayerId) : bool :=
  existsb Player_classifier_stochastic players.

Definition is_stochastic (players : list PlayerId) (noise : Q) : FloatOrBool :=
  if Q_truthy noise then VFloat noise else VBool (any_stochastic players).

(** The attributes of a [Match] object. *)
Record Match : Type := mkMatch {
  result : Interactions;
  turns : Z;
  _cache_key : CacheKey;
  noise : Q;
  game : Game;
  _cache : CacheId;
  match_attributes : Attrs;
  _players : list PlayerId
}.

Definition with_players (self : Match) (ps : list PlayerId) : Match :=
  mkMatch (result self) (turns self) (_cache_key self) (noise self) (game self)
          (_cache self) (match_attributes self) ps.

Definition with_result (self : Match) (r : Interactions) : Match :=
  mkMatch r (turns self) (_cache_key self) (noise self) (game self)
          (_cache self) (match_attributes self) (_players self).

(** The [players] property, read. *)
Definition players (self : Match) : list PlayerId := _players self.

(** The loop of the [players] setter. *)
Fixpoint players_setter_loop (self : Match) (players newplayers : list PlayerId)
    : M (list PlayerId) :=
  match players with
  | [] => mret newplayers
  | player :: rest =>
      _ ← call_set_match_attributes player (match_attributes self);
      players_setter_loop self rest (newplayers ++ [player])
  end.

(** The [players] property, assigned: [self.players = players]. *)
Definition set_players (self : Match) (players : list PlayerId) : M Match :=
  newplayers ← players_setter_loop self players [];
  mret (with_players self newplayers).

(** The dictionary built when [match_attributes is None]. *)
Definition default_match_attributes (turns : Z) (game : Game) (noise : Q) : Attrs :=
  {[ "length" := AInt turns; "game" := AGame game; "noise" := ANum noise ]}.

(** [Match.__init__].  [game], [deterministic_cache] and [match_attributes]
    are [None] when they are not supplied. *)
Definition Match_init (players : list PlayerId) (turns : Z)
    (game : option Game) (deterministic_cache : option CacheId)
    (noise : Q) (match_attributes : option Attrs) : M Match :=
  p0 ← index players 0;
  p1 ← index players 1;
  let key := (p0, p1, turns) in
  let g := match game with None => default_Game | Some g => g end in
  c ← match deterministic_cache with
      | None => cache_new
      | Some c => mret c
      end;
  let attrs := match match_attributes with
               | None => default_match_attributes turns g noise
               | Some attrs => attrs
               end in
  set_players (mkMatch [] turns key noise g c attrs []) players.

Definition _stochastic (self : Match) : FloatOrBool :=
  is_stochastic (players self) (noise self).

Definition _cache_update_required (self : Match) : M bool :=
  if Q_truthy (noise self) then mret false
  else
    m ← cache_mutable (_cache self);
    if (m : bool) then mret (negb (any_stochastic (players self))) else mret false.

(** [for p in self.players: p.reset()] *)
Fixpoint reset_loop (ps : list PlayerId) : M unit :=
  match ps with
  | [] => mret tt
  | p :: rest => _ ← call_reset p; reset_loop rest
  end.

(** [self.players[0].play(self.players[1], self.noise)] *)
Definition play_turn (self : Match) : M unit :=
  p0 ← index (players self) 0;
  p1 ← index (players self) 1;
  call_play p0 p1 (noise self).

(** [while turn < self.turns: turn += 1; ...] *)
Equations? play_loop (self : Match) (turn : Z) (w : World)
    : Result unit * World by wf (Z.to_nat (turns self - turn)) lt :=
  play_loop self turn w with decide (turn < turns self) => {
    | left Hlt with play_turn self w => {
        | (Ok tt, w') => play_loop self (turn + 1) w';
        | (Raise e, w') => (Raise e, w') };
    | right Hge => (Ok tt, w) }.
Proof. lia. Qed.

Definition play (self : Match) : M (Interactions * Match) :=
  fresh_needed ← (if truthy (_stochastic self) then mret true
                  else b ← cache_contains (_cache self) (_cache_key self);
                       mret (negb b));
  if (fresh_needed : bool) then
    _ ← reset_loop (players self);
    _ ← play_loop self 0;
    p0 ← index (players self) 0;
    h0 ← read_history p0;
    p1 ← index (players self) 1;
    h1 ← read_history p1;
    let result := zip h0 h1 in
    required ← _cache_update_required self;
    _ ← (if (required : bool) then cache_setitem (_cache self) (_cache_key self) result
         else mret tt);
    mret (result, with_result self result)
  else
    result ← cache_getitem (_cache self) (_cache_key self);
    mret (result, with_result self result).

(** Modelled from the spec: the module [axelrod.interaction_utils] is not
    part of the sources at hand.  "scores(): sequence of per-turn
    (score_1, score_2) pairs via the Game's payoff lookup on each action
    pair." *)
Definition compute_scores (interactions : Interactions) (g : Game) : list (Q * Q) :=
  map (score g) interactions.

(** Modelled from the spec: [axelrod.interaction_utils] is not part of the
    sources at hand.  "final_score(): sum of per-turn scores for each
    player." *)
Definition compute_final_score (interactions : Interactions) (g : Game) : Q * Q :=
  foldl (λ acc s, (Qplus (fst acc) (fst s), Qplus (snd acc) (snd s)))
        (0%Q, 0%Q) (compute_scores interactions g).

(** What [compute_winner_index] returns: [False], [None] or an index. *)
Inductive WinnerIndex : Type :=
| WI_False
| WI_None
| WI_Index (i : nat).

(** Modelled from the spec: [axelrod.interaction_utils] is not part of the
    sources at hand.  "Index of the player with the strictly higher final
    score; returns a no-winner sentinel on a tie, and a distinct no-data
    sentinel when the record is empty." *)
Definition compute_winner_index (interactions : Interactions) (g : Game) : WinnerIndex :=
  match interactions with
  | [] => WI_None
  | _ :: _ =>
      let '(s1, s2) := compute_final_score interactions g in
      if Qeq_bool s1 s2 then WI_False
      else if Qle_bool s2 s1 then WI_Index 0
      else WI_Index 1
  end.

(** [Match.scores] and [Match.final_score] *)
Definition scores (self : Match) : list (Q * Q) :=
  compute_scores (result self) (game self).

Definition final_score (self : Match) : Q * Q :=
  compute_final_score (result self) (game self).

(** What [Match.winner] returns: [False], [None] or a player. *)
Inductive Winner : Type :=
| W_False
| W_None
| W_Player (p : PlayerId).

(** [Match.winner] *)
Definition winner (self : Match) : M Winner :=
  match compute_winner_index (result self) (game self) with
  | WI_False => mret W_False
  | WI_None => mret W_None
  | WI_Index winner_index =>
      p ← index (players self) winner_index; mret (W_Player p)
  end.

(** [Match.__len__] *)
Definition Match_len (self : Match) : Z := turns self.

(** ** What [play] decides, spelled out on the store

    These are used to state what [play] does; [play] itself does not call
    them. *)

(** [self._cache_key in self._cache] *)
Definition key_cached (self : Match) (w : World) : bool :=
  bool_decide (is_Some (entries (caches w !!! _cache self) !! _cache_key self)).

(** The entry of the match's key in the match's cache. *)
Definition cached_record (self : Match) (w : World) : option Interactions :=
  entries (caches w !!! _cache self) !! _cache_key self.

(** The condition of the [if] in [play]. *)
Definition fresh_simulation (self : Match) (w : World) : bool :=
  truthy (_stochastic self) || negb (key_cached self w).

(** The three conditions of [_cache_update_required]. *)
Definition update_eligible (self : Match) (w : World) : bool :=
  negb (Q_truthy (noise self)) && mutable (caches w !!! _cache self)
  && negb (any_stochastic (players self)).

(** The heap after [p.reset()] for each player of the list, in order. *)
Definition reset_all (ps : list PlayerId) (h : PlayerHeap) : PlayerHeap :=
  foldl (λ h p, Player_reset p h) h ps.

(** The heap after [n] calls of [p1.play(p2, noise)]. *)
Fixpoint play_turns (n : nat) (p1 p2 : PlayerId) (noise : Q) (h : PlayerHeap)
    : PlayerHeap :=
  match n with
  | O => h
  | Datatypes.S n' => play_turns n' p1 p2 noise (Player_play p1 p2 noise h)
  end.

(** The cache store after [cache[key] = r] on cache [c]. *)
Definition store_record (c : CacheId) (k : CacheKey) (r : Interactions)
    (cs : gmap CacheId DeterministicCache) : gmap CacheId DeterministicCache :=
  <[c := mkCache (mutable (cs !!! c)) (<[k := r]> (entries (cs !!! c)))]> cs.

(** Whether a logged call reads or writes an Action Record of a cache. *)
Definition is_record_access (e : Event) : bool :=
  match e with
  | EvCacheGet _ _ | EvCacheSet _ _ _ => true
  | _ => false
  end.

(** Whether a logged call writes an Action Record into a cache. *)
Definition is_cache_write (e : Event) : bool :=
  match e with
  | EvCacheSet _ _ _ => true
  | _ => false
  end.

(** Whether a logged call is the membership test [key in cache]. *)
Definition is_membership_test (e : Event) : bool :=
  match e with
  | EvCacheContains _ _ => true
  | _ => false
  end.

(** Whether a logged call is [set_match_attributes] on a player. *)
Definition is_set_match_attributes (e : Event) : bool :=
  match e with
  | EvSetMatchAttributes _ _ => true
  | _ => false
  end.

(** A logged call that touches a cache touches cache [c], and under key [k]
    when it names a key. *)
Definition on_cache_key (c : CacheId) (k : CacheKey) (e : Event) : Prop :=
  match e with
  | EvCacheContains c' k' | EvCacheGet c' k' | EvCacheSet c' k' _ => c' = c ∧ k' = k
  | EvCacheMutable c' => c' = c
  | _ => True
  end.

(** Whether a logged call invokes a player's [reset] or [play]. *)
Definition is_player_call (e : Event) : bool :=
  match e with
  | EvReset _ | EvPlay _ _ _ => true
  | _ => false
  end.

(** The calls logged while [play] evaluates the condition of its [if]:
    [or] does not look at the cache when [_stochastic] is truthy. *)
Definition decision_events (self : Match) : list Event :=
  if truthy (_stochastic self) then []
  else [EvCacheContains (_cache self) (_cache_key self)].

(** The calls logged by the simulation: the resets, then the turns. *)
Definition simulation_events (self : Match) (p1 p2 : PlayerId) : list Event :=
  map EvReset (players self)
  ++ repeat (EvPlay p1 p2 (noise self)) (Z.to_nat (turns self)).

(** The calls logged by [if self._cache_update_required: ...]: [and] does
    not look at the cache when the noise is truthy. *)
Definition update_events (self : Match) (w : World) (r : Interactions) : list Event :=
  (if Q_truthy (noise self) then [] else [EvCacheMutable (_cache self)])
  ++ (if update_eligible self w then [EvCacheSet (_cache self) (_cache_key self) r]
      else []).

(** The heap and the record that a fresh simulation between [p1] and [p2]
    arrives at. *)
Definition simulated_heap (self : Match) (p1 p2 : PlayerId) (h : PlayerHeap)
    : PlayerHeap :=
  play_turns (Z.to_nat (turns self)) p1 p2 (noise self) (reset_all (players self) h).

Definition simulated_record (self : Match) (p1 p2 : PlayerId) (h : PlayerHeap)
    : Interactions :=
  zip (Player_history p1 (simulated_heap self p1 p2 h))
      (Player_history p2 (simulated_heap self p1 p2 h)).

(** The heap after [p.set_match_attributes] with [attrs] as its keyword
    arguments for each player of the list, in order. *)
Definition push_attributes (attrs : Attrs) (ps : list PlayerId) (h : PlayerHeap)
    : PlayerHeap :=
  foldl (λ h p, Player_set_match_attributes p attrs h) h ps.

(** The arguments that select the cache and the attributes in [__init__]. *)
Definition init_game (game : option Game) : Game :=
  match game with None => default_Game | Some g => g end.

Definition init_attrs (turns : Z) (game : option Game) (noise : Q)
    (match_attributes : option Attrs) : Attrs :=
  match match_attributes with
  | None => default_match_attributes turns (init_game game) noise
  | Some attrs => attrs
  end.

Definition init_cache (deterministic_cache : option CacheId) (w : World) : CacheId :=
  match deterministic_cache with
  | None => fresh (dom (caches w))
  | Some c => c
  end.

(** What the Player contract says of [reset] and [play], for the two
    players of a match: after both were reset both histories are empty, and
    one call of [p1.play(p2, noise)] adds one action to each history. *)
Definition resets_clear (p1 p2 : PlayerId) : Prop :=
  ∀ h, Player_history p1 (Player_reset p2 (Player_reset p1 h)) = []
       ∧ Player_history p2 (Player_reset p2 (Player_reset p1 h)) = [].

Definition appends_one (p1 p2 : PlayerId) (noise : Q) : Prop :=
  ∀ h, length (Player_history p1 (Player_play p1 p2 noise h))
         = Datatypes.S (length (Player_history p1 h))
       ∧ length (Player_history p2 (Player_play p1 p2 noise h))
         = Datatypes.S (length (Player_history p2 h)).

(** The calls logged between two states of the store. *)
Definition new_events (w w' : World) : list Event :=
  drop (length (trace w)) (trace w').

(** What [play] leaves behind: the store, and the calls it logged. *)
Definition play_world (self : Match) (w : World) : World := (play self w).2.

Definition play_events (self : Match) (w : World) : list Event :=
  new_events w (play_world self w).

(** Whether a logged call creates a cache or tags a player with match
    attributes: what the constructor and the [players] setter do. *)
Definition is_setup_call (e : Event) : bool :=
  match e with
  | EvCacheNew _ | EvSetMatchAttributes _ _ => true
  | _ => false
  end.

(** Every record held by a cache has as many pairs as the [turns] of its
    key asks for: none when that number is negative. *)
Definition records_match_keys (cs : gmap CacheId DeterministicCache) : Prop :=
  ∀ c (k : CacheKey) r, entries (cs !!! c) !! k = Some r → length r = Z.to_nat k.2.

(** The three ways a call of [play] can go. *)
Inductive play_case (self : Match) (w : World) : Prop :=
| play_case_fresh p1 p2 rest :
    players self = p1 :: p2 :: rest →
    fresh_simulation self w = true →
    play self w =
      (Ok (simulated_record self p1 p2 (heap w),
           with_result self (simulated_record self p1 p2 (heap w))),
       mkWorld (simulated_heap self p1 p2 (heap w))
               (if update_eligible self w
                then store_record (_cache self) (_cache_key self)
                                  (simulated_record self p1 p2 (heap w)) (caches w)
                else caches w)
               (trace w ++ decision_events self ++ simulation_events self p1 p2
                  ++ update_events self w (simulated_record self p1 p2 (heap w)))) →
    play_case self w
| play_case_short :
    (length (players self) < 2)%nat →
    fresh_simulation self w = true →
    play self w =
      (Raise IndexError,
       mkWorld (reset_all (players self) (heap w)) (caches w)
               (trace w ++ decision_events self ++ map EvReset (players self))) →
    play_case self w
| play_case_cached r :
    fresh_simulation self w = false →
    cached_record self w = Some r →
    play self w =
      (Ok (r, with_result self r),
       mkWorld (heap w) (caches w)
               (trace w ++ [EvCacheContains (_cache self) (_cache_key self);
                            EvCacheGet (_cache self) (_cache_key self)])) →
    play_case self w.

End Engine.

(** ** A small population of players

    Four kinds of players to run the engine on: the identity of a player
    fixes its kind (player [3] is the only [Random] one, players [4] and up
    are further cooperators).  Only [Random] is classified stochastic.
    They stand in for the strategies of the library, which the engine treats
    as interchangeable, and serve to evaluate the engine on examples. *)

Inductive Strategy : Type := Cooperator | Defector | TitForTat | Random.

Definition strategy_of (p : PlayerId) : Strategy :=
  match p with
  | 0%nat => Cooperator
  | 1%nat => Defector
  | 2%nat => TitForTat
  | 3%nat => Random
  | _ => Cooperator
  end.

Record Population : Type := mkPopulation {
  histories : gmap PlayerId (list Action);
  attributes : gmap PlayerId Attrs;
  seed : N
}.

Definition history_of (p : PlayerId) (h : Population) : list Action :=
  default [] (histories h !! p).

Definition flip (a : Action) : Action :=
  match a with C => D | D => C end.

Definition next_seed (n : N) : N := ((n * 5 + 3) mod 16)%N.

(** A number in [[0,1)] drawn from the seed. *)
Definition draw (n : N) : Q := (Z.of_N (n mod 16)%N # 16)%Q.

Definition strategy (p opponent : PlayerId) (h : Population) : Action :=
  match strategy_of p with
  | Cooperator => C
  | Defector => D
  | TitForTat => default C (last (history_of opponent h))
  | Random => if N.even (seed h) then C else D
  end.

(** The action is flipped with probability [noise]. *)
Definition random_flip (a : Action) (noise : Q) (n : N) : Action :=
  if Qle_bool noise (draw n) then a else flip a.

Definition update_history (p : PlayerId) (a : Action) (h : Population) : Population :=
  mkPopulation (<[p := history_of p h ++ [a]]> (histories h)) (attributes h) (seed h).

Definition population_play (p opponent : PlayerId) (noise : Q) (h : Population)
    : Population :=
  let s1 := strategy p opponent h in
  let s2 := strategy opponent p h in
  let s1 := if Q_truthy noise then random_flip s1 noise (seed h) else s1 in
  let s2 := if Q_truthy noise then random_flip s2 noise (next_seed (seed h)) else s2 in
  let h := update_history opponent s2 (update_history p s1 h) in
  mkPopulation (histories h) (attributes h) (next_seed (next_seed (seed h))).

Definition population_reset (p : PlayerId) (h : Population) : Population :=
  mkPopulation (<[p := []]> (histories h)) (attributes h) (seed h).

Definition population_set_match_attributes (p : PlayerId) (attrs : Attrs)
    (h : Population) : Population :=
  mkPopulation (histories h) (<[p := attrs]> (attributes h)) (seed h).

Definition population_stochastic (p : PlayerId) : bool :=
  match strategy_of p with
  | Random => true
  | _ => false
  end.

Definition population_ops : PlayerOps := {|
  PlayerHeap := Population;
  Player_history := history_of;
  Player_classifier_stochastic := population_stochastic;
  Player_reset := population_reset;
  Player_play := population_play;
  Player_set_match_attributes := population_set_match_attributes
|}.

(** Nobody has played yet, and no cache exists. *)
Definition empty_population : Population := mkPopulation ∅ ∅ 7.

Definition initial_world : @World population_ops :=
  @mkWorld population_ops empty_population ∅ [].

(** Matches on this population, as the constructor builds them in
    [initial_world]: the first cache created is number [0]. *)
Definition coop_vs_defect : Match :=
  mkMatch [] 2 (0%nat, 1%nat, 2) 0 default_Game 0%nat
          (default_match_attributes 2 default_Game 0) [0%nat; 1%nat].

Definition coop_vs_coop_played : Match :=
  mkMatch [(C, C); (C, C)] 2 (0%nat, 4%nat, 2) 0 default_Game 0%nat
          (default_match_attributes 2 default_Game 0) [0%nat; 4%nat].

Definition coop_vs_random : Match :=
  mkMatch [] 2 (0%nat, 3%nat, 2) 0 default_Game 0%nat
          (default_match_attributes 2 default_Game 0) [0%nat; 3%nat].

Definition negative_noise_match : Match :=
  mkMatch [] 2 (0%nat, 1%nat, 2) (-1 # 2) default_Game 0%nat
          (default_match_attributes 2 default_Game (-1 # 2)) [0%nat; 1%nat].

Definition excessive_noise_match : Match :=
  mkMatch [] 2 (0%nat, 1%nat, 2) (3 # 2) default_Game 0%nat
          (default_match_attributes 2 default_Game (3 # 2)) [0%nat; 1%nat].

Definition negative_turns_match : Match :=
  mkMatch [] (-1) (0%nat, 1%nat, -1) 0 default_Game 0%nat
          (default_match_attributes (-1) default_Game 0) [0%nat; 1%nat].

Definition zero_turns_match : Match :=
  mkMatch [] 0 (0%nat, 1%nat, 0) 0 default_Game 0%nat
          (default_match_attributes 0 default_Game 0) [0%nat; 1%nat].

(** The store once cache [0] exists, with nothing in it. *)
Definition started_world : @World population_ops :=
  @mkWorld population_ops empty_population {[ 0%nat := new_DeterministicCache ]} [].

(** The store with cache [0] frozen and empty. *)
Definition frozen_world : @World population_ops :=
  @mkWorld population_ops empty_population {[ 0%nat := mkCache false ∅ ]} [].

(** A match that was given three players. *)
Definition three_players_match : Match :=
  mkMatch [] 2 (0%nat, 1%nat, 2) 0 default_Game 0%nat
          (default_match_attributes 2 default_Game 0) [0%nat; 1%nat; 2%nat].

(** ** strategies/stalker.py

    The methods of the class [Stalker] as they are written in the class body
    (the class decorator is not part of the sources at hand and is left
    out).  Numbers are exact rationals: the payoffs of a game are integers in
    practice, and on integers the floating-point average that Python computes
    compares with the thresholds as the exact one does. *)
Module Stalker.

(** Python exceptions that the methods can raise. *)
Inductive Error : Type := KeyError | IndexError | AttributeError.

Inductive Outcome (A : Type) : Type :=
| Returns (a : A)
| Raises (e : Error).
Arguments Returns {A} a.
Arguments Raises {A} e.

(** The attributes of a [Stalker] object.  [history] and [match_attributes]
    are the ones it has from [Player]. *)
Record State : Type := mkState {
  history : list Action;
  match_attributes : Attrs;
  R : Q;
  P : Q;
  S : Q;
  T : Q;
  scores : list Q
}.

Definition with_scores (self : State) (l : list Q) : State :=
  mkState (history self) (match_attributes self) (R self) (P self) (S self) (T self) l.

(** [x > y] and [x < y] on numbers. *)
Definition gt (x y : Q) : bool := negb (Qle_bool x y).
Definition lt (x y : Q) : bool := negb (Qle_bool y x).

(** [sum(l)] and [sum(l) / len(l)] *)
Definition sum (l : list Q) : Q := foldl Qplus 0%Q l.
Definition average (l : list Q) : Q := (sum l / inject_Z (Z.of_nat (length l)))%Q.

(** [Stalker.__init__], on what [super().__init__()] has set up: an empty
    history and the match attributes of the base class. *)
Definition init (base_match_attributes : Attrs) : Outcome State :=
  match base_match_attributes !! "game" with
  | None => Raises KeyError
  | Some (AGame g) =>
      let '(r, p, s, t) := RPST g in
      Returns (mkState [] base_match_attributes r p s t [])
  | Some _ => Raises AttributeError
  end.

(** [Stalker.score_last_round].  The opponent is read through its history
    only. *)
Definition score_last_round (self : State) (opponent_history : list Action)
    : Outcome unit * State :=
  match match_attributes self !! "game" with
  | None => (Raises KeyError, self)
  | Some game =>
      match last (history self) with
      | None => (Raises IndexError, self)
      | Some mine =>
          match last opponent_history with
          | None => (Raises IndexError, self)
          | Some theirs =>
              match game with
              | AGame g =>
                  let scores0 := score g (mine, theirs) in
                  (Returns tt, with_scores self (scores self ++ [scores0.1]))
              | _ => (Raises AttributeError, self)
              end
          end
      end
  end.

(** [Stalker.strategy].  [random_choice] is the action that the call
    [random_choice()] returns if it is made; the result is [None] when the
    method reaches its end without a [return]. *)
Definition strategy (self : State) (opponent_history : list Action)
    (random_choice : Action) : Outcome (option Action) * State :=
  if bool_decide (length (history self) = 0%nat) then (Returns (Some C), self)
  else
    match score_last_round self opponent_history with
    | (Raises e, self) => (Raises e, self)
    | (Returns _, self) =>
        let current_average_score := average (scores self) in
        let very_good_score := R self in
        let very_bad_score := P self in
        let wish_score := ((very_bad_score + very_good_score) / 2)%Q in
        if gt current_average_score very_good_score then
          (Returns (Some D), self)
        else if gt current_average_score wish_score
                && lt current_average_score very_good_score then
          (Returns (Some C), self)
        else if gt current_average_score 2 then
          (Returns (Some C), self)
        else if lt current_average_score 2 && gt current_average_score 1 then
          (Returns (Some D), self)
        else if lt current_average_score 1 then
          (Returns (Some random_choice), self)
        else
          (Returns None, self)
    end.

(** Modelled from the spec: [Player.reset] is not part of the sources at
    hand; "reset() clears per-match mutable state", here the history.
    [Stalker.reset] then empties [scores]. *)
Definition reset (self : State) : State :=
  mkState [] (match_attributes self) (R self) (P self) (S self) (T self) [].

(** Modelled from the spec: [Player.play] is not part of the sources at
    hand; "play(opponent, noise) advances both sides' history by one turn".
    The rounds of a Stalker against an opponent whose moves are given, with
    no noise: each round the Stalker decides, then both histories grow by
    one.  The result is the Stalker and the history of its opponent after
    the last round, if every decision gave an action. *)
Fixpoint rounds (self : State) (opponent_history opponent_moves : list Action)
    (random_choice : Action) : option (State * list Action) :=
  match opponent_moves with
  | [] => Some (self, opponent_history)
  | theirs :: moves =>
      match strategy self opponent_history random_choice with
      | (Returns (Some mine), self) =>
          rounds (mkState (history self ++ [mine]) (match_attributes self)
                          (R self) (P self) (S self) (T self) (scores self))
                 (opponent_history ++ [theirs]) moves random_choice
      | _ => None
      end
  end.

End Stalker.

(** A Stalker as [__init__] leaves it under the standard game, and the same
    Stalker after five rounds in which its opponent played C, D, D, D, C. *)
Definition stalker_at_start : Stalker.State :=
  Stalker.mkState [] (default_match_attributes 10 default_Game 0) 3 1 0 5 [].

Definition stalker_after_five : Stalker.State :=
  Stalker.mkState [C; C; D; D; D] (default_match_attributes 10 default_Game 0)
                  3 1 0 5 [3; 0; 1; 1]%Q.

Section EngineFacts.
Context `{PO : PlayerOps}.

Lemma index_Some {A} (l : list A) i x (w : World) :
  l !! i = Some x → index l i w = (Ok x, w).
Proof. intros H. unfold index. by rewrite H. Qed.

Lemma play_loop_step (self : Match) turn (w : World) :
  play_loop self turn w =
    if decide (turn < turns self) then
      match play_turn self w with
      | (Ok _, w') => play_loop self (turn + 1) w'
      | (Raise e, w') => (Raise e, w')
      end
    else (Ok tt, w).
Proof.
  rewrite play_loop_equation_1.
  destruct (decide (turn < turns self)); simpl; [|done].
  by destruct (play_turn self w) as [[[]|e] w'].
Qed.

Lemma world_eta (w : World) : mkWorld (heap w) (caches w) (trace w ++ []) = w.
Proof. destruct w; simpl. by rewrite app_nil_r. Qed.

Lemma reset_loop_spec ps (w : World) :
  reset_loop ps w =
    (Ok tt, mkWorld (reset_all ps (heap w)) (caches w) (trace w ++ map EvReset ps)).
Proof.
  revert w. induction ps as [|p ps IH]; intros w; simpl.
  - by rewrite world_eta.
  - unfold mbind, M_bind, bind, call_reset, log, update_heap; simpl.
    rewrite IH; simpl. by rewrite <- app_assoc.
Qed.

Lemma play_turn_spec self p1 p2 rest (w : World) :
  players self = p1 :: p2 :: rest →
  play_turn self w =
    (Ok tt, mkWorld (Player_play p1 p2 (noise self) (heap w)) (caches w)
                    (trace w ++ [EvPlay p1 p2 (noise self)])).
Proof. intros Hps. unfold play_turn. by rewrite Hps. Qed.

Lemma play_turn_short self (w : World) :
  (length (players self) < 2)%nat → play_turn self w = (Raise IndexError, w).
Proof.
  unfold play_turn. destruct (players self) as [|p1 [|p2 rest]]; simpl; try done. lia.
Qed.

Lemma play_loop_spec self p1 p2 rest :
  players self = p1 :: p2 :: rest →
  ∀ n turn (w : World), Z.to_nat (turns self - turn) = n →
    play_loop self turn w =
      (Ok tt, mkWorld (play_turns n p1 p2 (noise self) (heap w)) (caches w)
                      (trace w ++ repeat (EvPlay p1 p2 (noise self)) n)).
Proof.
  intros Hps n. induction n as [|n IH]; intros turn w Hn; rewrite play_loop_step.
  - destruct (decide (turn < turns self)); [lia|]. simpl. by rewrite world_eta.
  - destruct (decide (turn < turns self)); [|lia].
    rewrite (play_turn_spec _ _ _ _ _ Hps), IH by lia. simpl.
    by rewrite <- app_assoc.
Qed.

Lemma play_loop_short self (w : World) :
  (length (players self) < 2)%nat →
  play_loop self 0 w =
    if decide (0 < turns self) then (Raise IndexError, w) else (Ok tt, w).
Proof.
  intros Hlen. rewrite play_loop_step.
  destruct (decide (0 < turns self)); [|done]. by rewrite play_turn_short.
Qed.

Lemma _cache_update_required_spec self (w : World) :
  _cache_update_required self w =
    (Ok (update_eligible self w),
     mkWorld (heap w) (caches w)
             (trace w ++ if Q_truthy (noise self) then []
                         else [EvCacheMutable (_cache self)])).
Proof.
  unfold _cache_update_required, update_eligible.
  destruct (Q_truthy (noise self)); simpl.
  - by rewrite world_eta.
  - unfold mbind, M_bind, bind, cache_mutable, log, get_world; simpl.
    by destruct (mutable _).
Qed.

Lemma bind_Ok {A B} (m : M A) (k : A → M B) (w w' : World) a :
  m w = (Ok a, w') → (m ≫= k) w = k a w'.
Proof. intros H. unfold mbind, M_bind, bind. by rewrite H. Qed.

Lemma bind_Raise {A B} (m : M A) (k : A → M B) (w w' : World) e :
  m w = (Raise e, w') → (m ≫= k) w = (Raise e, w').
Proof. intros H. unfold mbind, M_bind, bind. by rewrite H. Qed.

Lemma play_decision_spec self (w : World) :
  (if truthy (_stochastic self) then mret true
   else b ← cache_contains (_cache self) (_cache_key self); mret (negb b)) w =
    (Ok (fresh_simulation self w),
     mkWorld (heap w) (caches w) (trace w ++ decision_events self)).
Proof.
  unfold fresh_simulation, decision_events.
  destruct (truthy (_stochastic self)); simpl.
  - by rewrite world_eta.
  - reflexivity.
Qed.

Lemma play_loop_from_0 self p1 p2 rest (w : World) :
  players self = p1 :: p2 :: rest →
  play_loop self 0 w =
    (Ok tt, mkWorld (play_turns (Z.to_nat (turns self)) p1 p2 (noise self) (heap w))
                    (caches w)
                    (trace w ++ repeat (EvPlay p1 p2 (noise self))
                                       (Z.to_nat (turns self)))).
Proof.
  intros Hps. apply (play_loop_spec _ _ _ _ Hps). by rewrite Z.sub_0_r.
Qed.

Lemma read_history_spec p (w : World) :
  read_history p w = (Ok (Player_history p (heap w)), w).
Proof. reflexivity. Qed.

Lemma cache_setitem_spec c k r (w : World) :
  cache_setitem c k r w =
    (Ok tt, mkWorld (heap w) (store_record c k r (caches w))
                    (trace w ++ [EvCacheSet c k r])).
Proof. reflexivity. Qed.

(** The fresh path of [play], for a match that has its two players. *)
Lemma play_fresh_spec self (w : World) p1 p2 rest :
  players self = p1 :: p2 :: rest →
  fresh_simulation self w = true →
  play self w =
    (Ok (simulated_record self p1 p2 (heap w),
         with_result self (simulated_record self p1 p2 (heap w))),
     mkWorld (simulated_heap self p1 p2 (heap w))
             (if update_eligible self w
              then store_record (_cache self) (_cache_key self)
                                (simulated_record self p1 p2 (heap w)) (caches w)
              else caches w)
             (trace w ++ decision_events self ++ simulation_events self p1 p2
                      ++ update_events self w (simulated_record self p1 p2 (heap w)))).
Proof.
  intros Hps Hfresh. unfold play.
  erewrite bind_Ok by apply play_decision_spec. rewrite Hfresh.
  erewrite bind_Ok by apply reset_loop_spec.
  erewrite bind_Ok by apply (play_loop_from_0 _ _ _ _ _ Hps).
  erewrite bind_Ok by (apply index_Some; rewrite Hps; reflexivity).
  erewrite bind_Ok by apply read_history_spec.
  erewrite bind_Ok by (apply index_Some; rewrite Hps; reflexivity).
  erewrite bind_Ok by apply read_history_spec.
  erewrite bind_Ok by apply _cache_update_required_spec.
  unfold update_eligible, update_events, simulation_events, simulated_record,
    simulated_heap; simpl.
  fold (update_eligible self w).
  destruct (update_eligible self w); simpl.
  - erewrite bind_Ok by apply cache_setitem_spec. simpl.
    unfold mret, M_ret, ret. do 2 f_equal. by rewrite <- !app_assoc.
  - unfold mbind, M_bind, bind, mret, M_ret, ret; simpl.
    do 2 f_equal. rewrite <- !app_assoc. by rewrite app_nil_r.
Qed.

Lemma fresh_simulation_false self (w : World) :
  fresh_simulation self w = false ↔
  truthy (_stochastic self) = false ∧ is_Some (cached_record self w).
Proof.
  unfold fresh_simulation, key_cached, cached_record.
  rewrite orb_false_iff, negb_false_iff, bool_decide_eq_true. done.
Qed.

(** The other path of [play]: the record comes out of the cache. *)
Lemma play_cached_spec self (w : World) r :
  fresh_simulation self w = false →
  cached_record self w = Some r →
  play self w =
    (Ok (r, with_result self r),
     mkWorld (heap w) (caches w)
             (trace w ++ [EvCacheContains (_cache self) (_cache_key self);
                          EvCacheGet (_cache self) (_cache_key self)])).
Proof.
  intros Hfresh Hr. unfold play.
  erewrite bind_Ok by apply play_decision_spec. rewrite Hfresh.
  apply fresh_simulation_false in Hfresh as [Hst _].
  unfold decision_events. rewrite Hst.
  unfold cached_record in Hr.
  unfold cache_getitem, mbind, M_bind, bind, log, get_world; simpl.
  rewrite Hr; simpl. unfold ret. by rewrite <- app_assoc.
Qed.

(** [play] on a match whose [players] list was replaced by one with fewer
    than two players: the lookup of a player raises. *)
Lemma play_short_spec self (w : World) :
  (length (players self) < 2)%nat →
  fresh_simulation self w = true →
  play self w =
    (Raise IndexError,
     mkWorld (reset_all (players self) (heap w)) (caches w)
             (trace w ++ decision_events self ++ map EvReset (players self))).
Proof.
  intros Hlen Hfresh. unfold play.
  erewrite bind_Ok by apply play_decision_spec. rewrite Hfresh.
  erewrite bind_Ok by apply reset_loop_spec. simpl.
  rewrite <- app_assoc.
  destruct (decide (0 < turns self)) as [Hpos|Hpos].
  - erewrite bind_Raise; [reflexivity|].
    rewrite play_loop_short by done. by rewrite decide_True.
  - erewrite bind_Ok by (rewrite play_loop_short by done; by rewrite decide_False).
    destruct (players self) as [|p1 [|p2 rest]]; simpl in *; try done. lia.
Qed.

Lemma players_setter_loop_spec self ps acc (w : World) :
  players_setter_loop self ps acc w =
    (Ok (acc ++ ps),
     mkWorld (push_attributes (match_attributes self) ps (heap w)) (caches w)
             (trace w ++ map (λ p, EvSetMatchAttributes p (match_attributes self)) ps)).
Proof.
  revert acc w. induction ps as [|p ps IH]; intros acc w; simpl.
  - by rewrite world_eta, app_nil_r.
  - unfold mbind, M_bind, bind, call_set_match_attributes, log, update_heap; simpl.
    rewrite IH; simpl. by rewrite <- !app_assoc.
Qed.

Lemma set_players_spec self ps (w : World) :
  set_players self ps w =
    (Ok (with_players self ps),
     mkWorld (push_attributes (match_attributes self) ps (heap w)) (caches w)
             (trace w ++ map (λ p, EvSetMatchAttributes p (match_attributes self)) ps)).
Proof.
  unfold set_players. erewrite bind_Ok by apply players_setter_loop_spec. done.
Qed.

Lemma cache_new_spec (w : World) :
  cache_new w =
    (Ok (fresh (dom (caches w))),
     mkWorld (heap w) (<[fresh (dom (caches w)) := new_DeterministicCache]> (caches w))
             (trace w ++ [EvCacheNew (fresh (dom (caches w)))])).
Proof. reflexivity. Qed.

(** [Match(...)] for at least two players. *)
Lemma Match_init_spec p1 p2 rest turns0 game0 cache0 noise0 attrs0 (w : World) :
  Match_init (p1 :: p2 :: rest) turns0 game0 cache0 noise0 attrs0 w =
    (Ok (mkMatch [] turns0 (p1, p2, turns0) noise0 (init_game game0)
                 (init_cache cache0 w)
                 (init_attrs turns0 game0 noise0 attrs0) (p1 :: p2 :: rest)),
     mkWorld (push_attributes (init_attrs turns0 game0 noise0 attrs0)
                              (p1 :: p2 :: rest) (heap w))
             (match cache0 with
              | None => <[fresh (dom (caches w)) := new_DeterministicCache]> (caches w)
              | Some _ => caches w
              end)
             (trace w
              ++ match cache0 with
                 | None => [EvCacheNew (fresh (dom (caches w)))]
                 | Some _ => []
                 end
              ++ map (λ p, EvSetMatchAttributes p (init_attrs turns0 game0 noise0 attrs0))
                     (p1 :: p2 :: rest))).
Proof.
  unfold Match_init.
  erewrite bind_Ok by (by apply index_Some).
  erewrite bind_Ok by (by apply index_Some).
  destruct cache0 as [c|].
  - erewrite bind_Ok by reflexivity. rewrite set_players_spec. reflexivity.
  - erewrite bind_Ok by apply cache_new_spec. rewrite set_players_spec; simpl.
    unfold init_attrs, init_game. by rewrite <- !app_assoc.
Qed.

(** [Match(...)] for fewer than two players: [players[0]] or [players[1]]
    raises before anything is done. *)
Lemma Match_init_short ps turns0 game0 cache0 noise0 attrs0 (w : World) :
  (length ps < 2)%nat →
  Match_init ps turns0 game0 cache0 noise0 attrs0 w = (Raise IndexError, w).
Proof.
  intros Hlen. destruct ps as [|p1 [|p2 rest]]; simpl in *; try done. lia.
Qed.

Lemma new_events_app (w w' : World) evs :
  trace w' = trace w ++ evs → new_events w w' = evs.
Proof. intros H. unfold new_events. rewrite H. apply drop_app_length. Qed.

Lemma Q_truthy_true q : Q_truthy q = true ↔ ¬ (q == 0)%Q.
Proof.
  unfold Q_truthy. rewrite negb_true_iff, <- not_true_iff_false.
  by rewrite Qeq_bool_iff.
Qed.

Lemma Q_truthy_false q : Q_truthy q = false ↔ (q == 0)%Q.
Proof. unfold Q_truthy. by rewrite negb_false_iff, Qeq_bool_iff. Qed.

Lemma any_stochastic_true ps :
  any_stochastic ps = true ↔ ∃ p, p ∈ ps ∧ Player_classifier_stochastic p = true.
Proof.
  unfold any_stochastic. rewrite existsb_exists.
  split; intros (p & Hin & Hp); exists p; split; try done; by apply list_elem_of_In.
Qed.

Lemma any_stochastic_false ps :
  any_stochastic ps = false ↔ ∀ p, p ∈ ps → Player_classifier_stochastic p = false.
Proof.
  rewrite <- not_true_iff_false, any_stochastic_true. split.
  - intros Hno p Hin. apply not_true_iff_false. intros Hp. apply Hno. eauto.
  - intros Hall (p & Hin & Hp). rewrite (Hall p Hin) in Hp. done.
Qed.

Lemma truthy_is_stochastic ps q :
  truthy (is_stochastic ps q) = Q_truthy q || any_stochastic ps.
Proof. unfold is_stochastic. by destruct (Q_truthy q) eqn:Hq. Qed.

Lemma truthy_stochastic_iff self :
  truthy (_stochastic self) = true ↔
  ¬ (noise self == 0)%Q
  ∨ ∃ p, p ∈ players self ∧ Player_classifier_stochastic p = true.
Proof.
  unfold _stochastic.
  by rewrite truthy_is_stochastic, orb_true_iff, Q_truthy_true, any_stochastic_true.
Qed.

Lemma update_eligible_true self (w : World) :
  update_eligible self w = true ↔
  (noise self == 0)%Q ∧ mutable (caches w !!! _cache self) = true
  ∧ ∀ p, p ∈ players self → Player_classifier_stochastic p = false.
Proof.
  unfold update_eligible.
  rewrite !andb_true_iff, !negb_true_iff, Q_truthy_false, any_stochastic_false.
  tauto.
Qed.

Lemma stochastic_not_eligible self (w : World) :
  truthy (_stochastic self) = true → update_eligible self w = false.
Proof.
  unfold _stochastic, update_eligible. rewrite truthy_is_stochastic.
  destruct (Q_truthy (noise self)), (any_stochastic (players self)),
    (mutable (caches w !!! _cache self)); done.
Qed.

Lemma play_cases self (w : World) : play_case self w.
Proof.
  destruct (fresh_simulation self w) eqn:Hfresh.
  - destruct (players self) as [|p1 [|p2 rest]] eqn:Hps.
    + apply play_case_short; [rewrite Hps; simpl; lia|done|].
      apply play_short_spec; [rewrite Hps; simpl; lia|done].
    + apply play_case_short; [rewrite Hps; simpl; lia|done|].
      apply play_short_spec; [rewrite Hps; simpl; lia|done].
    + apply (play_case_fresh _ _ p1 p2 rest); [done..|].
      by apply (play_fresh_spec _ _ _ _ rest).
  - pose proof Hfresh as [_ [r Hr]]%fresh_simulation_false.
    apply (play_case_cached _ _ r); [done..|]. by apply play_cached_spec.
Qed.

Lemma fresh_simulation_true self (w : World) :
  fresh_simulation self w = true ↔
  truthy (_stochastic self) = true ∨ cached_record self w = None.
Proof.
  unfold fresh_simulation, key_cached, cached_record.
  rewrite orb_true_iff, negb_true_iff, bool_decide_eq_false.
  by rewrite <- eq_None_not_Some.
Qed.

Lemma filter_player_call_decision self :
  List.filter is_player_call (decision_events self) = [].
Proof. unfold decision_events. by destruct (truthy _). Qed.

Lemma filter_player_call_update self (w : World) r :
  List.filter is_player_call (update_events self w r) = [].
Proof.
  unfold update_events. by destruct (Q_truthy _), (update_eligible _ _).
Qed.

Lemma filter_player_call_resets ps :
  List.filter is_player_call (map EvReset ps) = map EvReset ps.
Proof. induction ps as [|p ps IH]; simpl; by rewrite ?IH. Qed.

Lemma filter_player_call_plays p1 p2 q n :
  List.filter is_player_call (repeat (EvPlay p1 p2 q) n) = repeat (EvPlay p1 p2 q) n.
Proof. induction n as [|n IH]; simpl; by rewrite ?IH. Qed.

Lemma filter_player_call_simulation self p1 p2 :
  List.filter is_player_call (simulation_events self p1 p2) =
  simulation_events self p1 p2.
Proof.
  unfold simulation_events.
  by rewrite List.filter_app, filter_player_call_resets, filter_player_call_plays.
Qed.

(** C1.  [play] of a match between [p1] and [p2] simulates afresh exactly when
    the match is stochastic or its key is not in the cache.  On that path it
    resets [p1] and [p2], then calls [p1.play(p2, noise)] [turns] times, and
    returns the two histories zipped; the calls made on players are the two
    resets followed by the [turns] plays, in that order.  On the other path
    it returns the cached record, the players' state is untouched and the
    only calls logged are the membership test and the read of the cache. *)
Theorem play_fresh_or_cached self (w : World) p1 p2 :
  players self = [p1; p2] →
  let h' := play_turns (Z.to_nat (turns self)) p1 p2 (noise self)
                       (Player_reset p2 (Player_reset p1 (heap w))) in
  let r := zip (Player_history p1 h') (Player_history p2 h') in
  (existsb is_player_call (play_events self w) = true ↔
     truthy (_stochastic self) = true ∨ cached_record self w = None)
  ∧ (truthy (_stochastic self) = true ∨ cached_record self w = None →
       (play self w).1 = Ok (r, with_result self r)
       ∧ heap (play_world self w) = h'
       ∧ List.filter is_player_call (play_events self w) =
           [EvReset p1; EvReset p2]
           ++ repeat (EvPlay p1 p2 (noise self)) (Z.to_nat (turns self)))
  ∧ (∀ rc, truthy (_stochastic self) = false → cached_record self w = Some rc →
       (play self w).1 = Ok (rc, with_result self rc)
       ∧ heap (play_world self w) = heap w
       ∧ play_events self w = [EvCacheContains (_cache self) (_cache_key self);
                                EvCacheGet (_cache self) (_cache_key self)]).
Proof.
  intros Hps h' r.
  assert (Hfresh : fresh_simulation self w = true →
            (play self w).1 = Ok (r, with_result self r)
            ∧ heap (play_world self w) = h'
            ∧ List.filter is_player_call (play_events self w) =
                [EvReset p1; EvReset p2]
                ++ repeat (EvPlay p1 p2 (noise self)) (Z.to_nat (turns self))).
  { intros Hf. unfold play_events, play_world.
    rewrite (play_fresh_spec _ _ _ _ _ Hps Hf); simpl.
    erewrite new_events_app by reflexivity.
    rewrite !List.filter_app, filter_player_call_decision,
      filter_player_call_simulation, filter_player_call_update, app_nil_r; simpl.
    unfold simulated_record, simulated_heap, simulation_events, r, h'.
    by rewrite Hps. }
  assert (Hcached : ∀ rc, fresh_simulation self w = false →
            cached_record self w = Some rc →
            (play self w).1 = Ok (rc, with_result self rc)
            ∧ heap (play_world self w) = heap w
            ∧ play_events self w = [EvCacheContains (_cache self) (_cache_key self);
                                     EvCacheGet (_cache self) (_cache_key self)]).
  { intros rc Hf Hrc. unfold play_events, play_world.
    rewrite (play_cached_spec _ _ _ Hf Hrc); simpl.
    by erewrite new_events_app by reflexivity. }
  split; [|split].
  - rewrite <- fresh_simulation_true.
    destruct (fresh_simulation self w) eqn:Hf.
    + destruct (Hfresh eq_refl) as (_ & _ & Hev). split; [done|intros _].
      apply existsb_exists. exists (EvReset p1). split; [|done].
      eapply (proj1 (List.filter_In is_player_call _ _)).
      rewrite Hev. by left.
    + pose proof Hf as [_ [rc Hrc]]%fresh_simulation_false.
      destruct (Hcached rc eq_refl Hrc) as (_ & _ & ->). simpl. done.
  - intros Hcond. by apply Hfresh, fresh_simulation_true.
  - intros rc Hst Hrc. apply Hcached; [|done].
    apply fresh_simulation_false. by rewrite Hrc.
Qed.

Lemma filter_simulation_events (f : Event → bool) self p1 p2 :
  (∀ p, f (EvReset p) = false) → (∀ p q n, f (EvPlay p q n) = false) →
  List.filter f (simulation_events self p1 p2) = [].
Proof.
  intros Hr Hp. unfold simulation_events. rewrite List.filter_app.
  replace (List.filter f (map EvReset (players self))) with (@nil Event).
  - simpl. induction (Z.to_nat (turns self)) as [|n IH]; simpl; by rewrite ?Hp.
  - induction (players self) as [|p ps IH]; simpl; by rewrite ?Hr.
Qed.

Lemma filter_resets (f : Event → bool) ps :
  (∀ p, f (EvReset p) = false) → List.filter f (map EvReset ps) = [].
Proof. intros Hr. induction ps as [|p ps IH]; simpl; by rewrite ?Hr. Qed.

Lemma filter_decision_events (f : Event → bool) self :
  (∀ c k, f (EvCacheContains c k) = false) →
  List.filter f (decision_events self) = [].
Proof. intros Hc. unfold decision_events. destruct (truthy _); simpl; by rewrite ?Hc. Qed.

Lemma cached_record_store self r cs (w : World) :
  caches w = store_record (_cache self) (_cache_key self) r cs →
  cached_record self w = Some r.
Proof.
  intros Hc. unfold cached_record. rewrite Hc. unfold store_record.
  rewrite lookup_total_insert_eq; simpl. apply lookup_insert_eq.
Qed.

(** C2.  When the noise is not zero, or a player of the match is classified
    stochastic, a call of [play], in whatever state of the store, logs no
    read and no write of an Action Record of a cache, and leaves every cache
    as it was. *)
Theorem stochastic_play_bypasses_cache self (w : World) :
  ¬ (noise self == 0)%Q
  ∨ (∃ p, p ∈ players self ∧ Player_classifier_stochastic p = true) →
  List.filter is_record_access (play_events self w) = []
  ∧ caches (play_world self w) = caches w.
Proof.
  intros Hst%truthy_stochastic_iff.
  assert (Hfresh : fresh_simulation self w = true)
    by (apply fresh_simulation_true; by left).
  pose proof (stochastic_not_eligible self w Hst) as Hne.
  unfold play_events, play_world.
  destruct (play_cases self w) as [p1 p2 rest Hps _ ->| _ _ ->|r Hf _ _];
    [| |congruence]; simpl.
  - erewrite new_events_app by reflexivity. rewrite Hne. split; [|done].
    rewrite !List.filter_app, filter_decision_events, filter_simulation_events by done.
    unfold update_events. rewrite Hne. by destruct (Q_truthy _).
  - erewrite new_events_app by reflexivity. split; [|done].
    by rewrite List.filter_app, filter_decision_events, filter_resets.
Qed.

(** C3.  [_cache_update_required] holds exactly when the noise is zero, the
    cache is mutable and no player is classified stochastic.  When [play]
    has simulated the match between [p1] and [p2], it writes the record
    under the key of the match exactly in that case, and this is its only
    write.  When one of the three conditions fails, [play] leaves every cache
    as it was, also on the path that reads the cache; when all three hold,
    the cache holds the returned record under the key afterwards. *)
Theorem cache_written_iff_eligible self (w : World) p1 p2 :
  players self = [p1; p2] →
  let r := simulated_record self p1 p2 (heap w) in
  (update_eligible self w = true ↔
     (noise self == 0)%Q ∧ mutable (caches w !!! _cache self) = true
     ∧ ∀ p, p ∈ players self → Player_classifier_stochastic p = false)
  ∧ (_cache_update_required self w).1 = Ok (update_eligible self w)
  ∧ (fresh_simulation self w = true →
       (play self w).1 = Ok (r, with_result self r)
       ∧ List.filter is_cache_write (play_events self w) =
           (if update_eligible self w
            then [EvCacheSet (_cache self) (_cache_key self) r] else [])
       ∧ caches (play_world self w) =
           (if update_eligible self w
            then store_record (_cache self) (_cache_key self) r (caches w)
            else caches w))
  ∧ (fresh_simulation self w = false →
       List.filter is_cache_write (play_events self w) = []
       ∧ caches (play_world self w) = caches w)
  ∧ (update_eligible self w = false → caches (play_world self w) = caches w)
  ∧ (update_eligible self w = true →
       ∃ r', (play self w).1 = Ok (r', with_result self r')
             ∧ cached_record self (play_world self w) = Some r').
Proof.
  intros Hps r.
  assert (Hfresh : fresh_simulation self w = true →
       (play self w).1 = Ok (r, with_result self r)
       ∧ List.filter is_cache_write (play_events self w) =
           (if update_eligible self w
            then [EvCacheSet (_cache self) (_cache_key self) r] else [])
       ∧ caches (play_world self w) =
           (if update_eligible self w
            then store_record (_cache self) (_cache_key self) r (caches w)
            else caches w)).
  { intros Hf. unfold play_events, play_world.
    rewrite (play_fresh_spec _ _ _ _ _ Hps Hf); simpl.
    erewrite new_events_app by reflexivity.
    rewrite !List.filter_app, filter_decision_events, filter_simulation_events by done.
    unfold update_events. fold r.
    by destruct (Q_truthy _), (update_eligible self w). }
  assert (Hcached : fresh_simulation self w = false →
       List.filter is_cache_write (play_events self w) = []
       ∧ caches (play_world self w) = caches w
       ∧ ∃ r', (play self w).1 = Ok (r', with_result self r')
               ∧ cached_record self (play_world self w) = Some r').
  { intros Hf. pose proof Hf as [_ [rc Hrc]]%fresh_simulation_false.
    unfold play_events, play_world.
    rewrite (play_cached_spec _ _ _ Hf Hrc); simpl.
    erewrite new_events_app by reflexivity. simpl. eauto. }
  split; [apply update_eligible_true|].
  split; [by rewrite _cache_update_required_spec|].
  split; [done|]. split; [intros Hf; by destruct (Hcached Hf) as (? & ? & _)|].
  destruct (fresh_simulation self w) eqn:Hf.
  - destruct (Hfresh eq_refl) as (Hr & _ & Hc). split.
    + intros He. by rewrite Hc, He.
    + intros He. exists r. split; [done|]. rewrite He in Hc.
      by eapply cached_record_store.
  - destruct (Hcached eq_refl) as (_ & Hc & Hr). done.
Qed.

Lemma filter_membership_decision self :
  List.filter is_membership_test (decision_events self) = decision_events self.
Proof. unfold decision_events. by destruct (truthy _). Qed.

Lemma filter_membership_update self (w : World) r :
  List.filter is_membership_test (update_events self w r) = [].
Proof. unfold update_events. by destruct (Q_truthy _), (update_eligible _ _). Qed.

(** C4, as the code has it.  A match is classified stochastic exactly when
    its noise is not zero (a negative noise included) or one of its players
    is classified stochastic.  The classification is not stored: it is
    computed from the players the match has when it is asked, so it follows
    an assignment to [players], and every call of [play] consults the cache
    for the key exactly when the match is not stochastic at that call. *)
Theorem stochastic_iff_noise_nonzero_or_player self :
  (truthy (_stochastic self) = true ↔
     ¬ (noise self == 0)%Q
     ∨ ∃ p, p ∈ players self ∧ Player_classifier_stochastic p = true)
  ∧ (∀ ps (w : World),
       (set_players self ps w).1 = Ok (with_players self ps)
       ∧ (truthy (_stochastic (with_players self ps)) = true ↔
            ¬ (noise self == 0)%Q
            ∨ ∃ p, p ∈ ps ∧ Player_classifier_stochastic p = true))
  ∧ (∀ w : World,
       List.filter is_membership_test (play_events self w) =
         if truthy (_stochastic self) then []
         else [EvCacheContains (_cache self) (_cache_key self)]).
Proof.
  split; [apply truthy_stochastic_iff|]. split.
  - intros ps w. split; [by rewrite set_players_spec|].
    apply (truthy_stochastic_iff (with_players self ps)).
  - intros w. unfold play_events, play_world.
    destruct (play_cases self w) as [p1 p2 rest Hps _ ->| _ _ ->|r Hf _ ->]; simpl.
    + erewrite new_events_app by reflexivity.
      rewrite !List.filter_app, filter_membership_decision,
        filter_simulation_events, filter_membership_update, app_nil_r by done.
      done.
    + erewrite new_events_app by reflexivity.
      rewrite !List.filter_app, filter_membership_decision, filter_resets,
        app_nil_r by done.
      done.
    + erewrite new_events_app by reflexivity.
      apply fresh_simulation_false in Hf as [-> _]. done.
Qed.

(** C5, as the code has it.  The constructor validates neither [turns] nor
    [noise]: given at least two players it succeeds for every [turns] and
    every [noise] and stores both as they are; it raises only when fewer than
    two players are supplied. *)
Theorem Match_init_stores_turns_and_noise
    ps turns0 game0 cache0 noise0 attrs0 (w : World) :
  match Match_init ps turns0 game0 cache0 noise0 attrs0 w with
  | (Ok m, _) =>
      (2 ≤ length ps)%nat ∧ turns m = turns0 ∧ noise m = noise0
      ∧ Match_len m = turns0 ∧ result m = []
  | (Raise e, w') => (length ps < 2)%nat ∧ e = IndexError ∧ w' = w
  end.
Proof.
  destruct ps as [|p1 [|p2 rest]]; simpl; try (split; [lia|done]).
  rewrite Match_init_spec. simpl. repeat split; lia.
Qed.

Lemma play_turns_length p1 p2 q :
  appends_one p1 p2 q →
  ∀ n h,
    length (Player_history p1 (play_turns n p1 p2 q h))
      = (n + length (Player_history p1 h))%nat
    ∧ length (Player_history p2 (play_turns n p1 p2 q h))
      = (n + length (Player_history p2 h))%nat.
Proof.
  intros Happ n. induction n as [|n IH]; intros h; simpl; [done|].
  destruct (IH (Player_play p1 p2 q h)) as [-> ->].
  destruct (Happ h) as [-> ->]. lia.
Qed.

Lemma simulated_record_length self p1 p2 h :
  players self = [p1; p2] →
  resets_clear p1 p2 → appends_one p1 p2 (noise self) →
  length (simulated_record self p1 p2 h) = Z.to_nat (turns self).
Proof.
  intros Hps Hreset Happ. unfold simulated_record, simulated_heap.
  rewrite Hps. simpl. rewrite length_zip.
  destruct (play_turns_length _ _ _ Happ (Z.to_nat (turns self))
              (Player_reset p2 (Player_reset p1 h))) as [-> ->].
  destruct (Hreset h) as [-> ->]. simpl. lia.
Qed.

(** C6, for a number of turns that is not negative.  [len(match)] is the
    configured [turns] before and after [play].  If resetting the two players
    empties their histories, each [Player.play] call adds one action to each
    history, and the entry of the cache under the key of the match, if there
    is one, has [turns] pairs, then [play] succeeds, the record it returns
    and stores in the match has exactly [turns] pairs, and the entry of the
    cache under the key still has [turns] pairs afterwards. *)
Theorem record_length_is_turns self (w : World) p1 p2 :
  players self = [p1; p2] →
  0 ≤ turns self →
  resets_clear p1 p2 →
  appends_one p1 p2 (noise self) →
  (∀ rc, cached_record self w = Some rc → Z.of_nat (length rc) = turns self) →
  ∃ r, (play self w).1 = Ok (r, with_result self r)
       ∧ result (with_result self r) = r
       ∧ Z.of_nat (length r) = turns self
       ∧ Match_len self = turns self
       ∧ Match_len (with_result self r) = turns self
       ∧ (∀ rc, cached_record self (play_world self w) = Some rc →
                Z.of_nat (length rc) = turns self).
Proof.
  intros Hps Hturns Hreset Happ Hcache. unfold play_world.
  destruct (fresh_simulation self w) eqn:Hf.
  - rewrite (play_fresh_spec _ _ _ _ _ Hps Hf); simpl.
    pose proof (simulated_record_length self p1 p2 (heap w) Hps Hreset Happ) as Hlen.
    eexists. split; [reflexivity|]. repeat split; try done; try lia.
    intros rc. destruct (update_eligible self w).
    + erewrite cached_record_store by reflexivity. intros [= <-]. lia.
    + apply Hcache.
  - pose proof Hf as [_ [rc Hrc]]%fresh_simulation_false.
    rewrite (play_cached_spec _ _ _ Hf Hrc); simpl.
    exists rc. repeat split; try done. by apply Hcache.
Qed.

Lemma compute_final_score_nil g : compute_final_score [] g = (0%Q, 0%Q).
Proof. reflexivity. Qed.

(** C7.  [winner] returns [None] when the stored record is empty, as it is
    on a match that was constructed and never played; [False] when the record
    is not empty and the two final scores are equal; and the first or the
    second player when that player's final score is strictly higher.  The
    three kinds of result are pairwise different. *)
Theorem winner_sentinels self (w : World) p1 p2 :
  players self = [p1; p2] →
  (result self = [] → winner self w = (Ok W_None, w))
  ∧ (result self ≠ [] → ((final_score self).1 == (final_score self).2)%Q →
       winner self w = (Ok W_False, w))
  ∧ (((final_score self).2 < (final_score self).1)%Q →
       winner self w = (Ok (W_Player p1), w))
  ∧ (((final_score self).1 < (final_score self).2)%Q →
       winner self w = (Ok (W_Player p2), w))
  ∧ (∀ ps turns0 game0 cache0 noise0 attrs0 (w0 w1 : World),
       match Match_init ps turns0 game0 cache0 noise0 attrs0 w0 with
       | (Ok m, _) => winner m w1 = (Ok W_None, w1)
       | (Raise _, _) => True
       end)
  ∧ W_False ≠ W_None
  ∧ (∀ p, W_Player p ≠ W_False ∧ W_Player p ≠ W_None).
Proof.
  intros Hps. unfold winner, final_score, compute_winner_index.
  split; [by intros ->|].
  split; [|split; [|split]].
  - intros Hne Heq. destruct (result self) as [|i l] eqn:Hr; [done|].
    destruct (compute_final_score (i :: l) (game self)) as [s1 s2]; simpl in *.
    apply Qeq_bool_iff in Heq. by rewrite Heq.
  - intros Hlt. destruct (result self) as [|i l] eqn:Hr.
    { rewrite compute_final_score_nil in Hlt. by apply Qlt_irrefl in Hlt. }
    destruct (compute_final_score (i :: l) (game self)) as [s1 s2]; simpl in *.
    destruct (Qeq_bool s1 s2) eqn:Heq.
    { apply Qeq_bool_iff in Heq. rewrite Heq in Hlt. by apply Qlt_irrefl in Hlt. }
    apply Qlt_le_weak, Qle_bool_iff in Hlt. rewrite Hlt, Hps. done.
  - intros Hlt. destruct (result self) as [|i l] eqn:Hr.
    { rewrite compute_final_score_nil in Hlt. by apply Qlt_irrefl in Hlt. }
    destruct (compute_final_score (i :: l) (game self)) as [s1 s2]; simpl in *.
    destruct (Qeq_bool s1 s2) eqn:Heq.
    { apply Qeq_bool_iff in Heq. rewrite Heq in Hlt. by apply Qlt_irrefl in Hlt. }
    destruct (Qle_bool s2 s1) eqn:Hle.
    { apply Qle_bool_iff in Hle. by apply Qle_not_lt in Hle. }
    rewrite Hps. done.
  - split; [|done].
    intros ps turns0 game0 cache0 noise0 attrs0 w0 w1.
    destruct ps as [|q1 [|q2 rest]]; simpl; try done.
    by rewrite Match_init_spec.
Qed.

Lemma play_cached_summary self (w : World) r :
  fresh_simulation self w = false →
  cached_record self w = Some r →
  (play self w).1 = Ok (r, with_result self r)
  ∧ play_events self w = [EvCacheContains (_cache self) (_cache_key self);
                           EvCacheGet (_cache self) (_cache_key self)]
  ∧ heap (play_world self w) = heap w
  ∧ caches (play_world self w) = caches w.
Proof.
  intros Hf Hr. unfold play_events, play_world.
  rewrite (play_cached_spec _ _ _ Hf Hr); simpl.
  by erewrite new_events_app by reflexivity.
Qed.

Lemma simulated_record_zero_turns self p1 p2 h :
  players self = [p1; p2] → turns self = 0 → resets_clear p1 p2 →
  simulated_record self p1 p2 h = [].
Proof.
  intros Hps Hturns Hreset. unfold simulated_record, simulated_heap.
  rewrite Hps, Hturns. simpl. by destruct (Hreset h) as [-> ->].
Qed.

(** C8.  A match with [turns = 0], hence with the key [(p1, p2, 0)]: if
    resetting its players empties their histories and the cache holds under
    the key either nothing or the empty record, then [play] returns the
    empty record, and the cache still holds under the key nothing or the
    empty record.  After a simulation that is eligible for a cache update
    the empty record has been written under the key; when the match is
    deterministic and the key is present, the record is fetched from the
    cache and no player is called; and a deterministic match that wrote the
    entry fetches it on its next [play]. *)
Theorem zero_turns_empty_and_cacheable self (w : World) p1 p2 :
  players self = [p1; p2] →
  turns self = 0 →
  _cache_key self = (p1, p2, 0) →
  resets_clear p1 p2 →
  (∀ rc, cached_record self w = Some rc → rc = []) →
  (play self w).1 = Ok ([], with_result self [])
  ∧ (∀ rc, cached_record self (play_world self w) = Some rc → rc = [])
  ∧ (fresh_simulation self w = true → update_eligible self w = true →
       List.filter is_record_access (play_events self w)
         = [EvCacheSet (_cache self) (p1, p2, 0) []]
       ∧ cached_record self (play_world self w) = Some [])
  ∧ (fresh_simulation self w = false →
       play_events self w = [EvCacheContains (_cache self) (p1, p2, 0);
                              EvCacheGet (_cache self) (p1, p2, 0)]
       ∧ heap (play_world self w) = heap w)
  ∧ (truthy (_stochastic self) = false → update_eligible self w = true →
       (play (with_result self []) (play_world self w)).1
         = Ok ([], with_result self [])
       ∧ play_events (with_result self []) (play_world self w)
         = [EvCacheContains (_cache self) (p1, p2, 0);
            EvCacheGet (_cache self) (p1, p2, 0)]).
Proof.
  intros Hps Hturns Hkey Hreset Hcache.
  pose proof (simulated_record_zero_turns self p1 p2 (heap w) Hps Hturns Hreset) as Hr.
  assert (Hafter : update_eligible self w = true →
            cached_record self (play_world self w) = Some []).
  { intros He. unfold play_world. destruct (fresh_simulation self w) eqn:Hf.
    - rewrite (play_fresh_spec _ _ _ _ _ Hps Hf), He, Hr; simpl.
      by eapply cached_record_store.
    - pose proof Hf as [_ [rc Hrc]]%fresh_simulation_false.
      rewrite (play_cached_spec _ _ _ Hf Hrc); simpl.
      transitivity (cached_record self w); [done|].
      rewrite Hrc. f_equal. by apply Hcache. }
  split; [|split; [|split; [|split]]].
  - destruct (fresh_simulation self w) eqn:Hf.
    + by rewrite (play_fresh_spec _ _ _ _ _ Hps Hf), Hr.
    + pose proof Hf as [_ [rc Hrc]]%fresh_simulation_false.
      rewrite (play_cached_spec _ _ _ Hf Hrc); simpl.
      by rewrite (Hcache rc Hrc).
  - intros rc. unfold play_world. destruct (fresh_simulation self w) eqn:Hf.
    + rewrite (play_fresh_spec _ _ _ _ _ Hps Hf), Hr; simpl.
      destruct (update_eligible self w).
      * erewrite cached_record_store by reflexivity. by intros [= <-].
      * apply Hcache.
    + pose proof Hf as [_ [rc' Hrc]]%fresh_simulation_false.
      rewrite (play_cached_spec _ _ _ Hf Hrc); simpl. apply Hcache.
  - intros Hf He. split; [|by apply Hafter].
    unfold play_events, play_world.
    rewrite (play_fresh_spec _ _ _ _ _ Hps Hf), Hr; simpl.
    erewrite new_events_app by reflexivity.
    rewrite !List.filter_app, filter_decision_events, filter_simulation_events by done.
    unfold update_events. rewrite He, Hkey. by destruct (Q_truthy _).
  - intros Hf. pose proof Hf as [_ [rc Hrc]]%fresh_simulation_false.
    unfold play_events, play_world.
    rewrite (play_cached_spec _ _ _ Hf Hrc), <- Hkey; simpl.
    by erewrite new_events_app by reflexivity.
  - intros Hst He. specialize (Hafter He).
    assert (Hf : fresh_simulation (with_result self []) (play_world self w) = false).
    { apply fresh_simulation_false. split; [done|].
      exists []. apply Hafter. }
    destruct (play_cached_summary _ _ [] Hf Hafter) as (-> & -> & _).
    simpl. by rewrite Hkey.
Qed.

Lemma Forall_on_cache_key_decision self :
  Forall (on_cache_key (_cache self) (_cache_key self)) (decision_events self).
Proof. unfold decision_events. destruct (truthy _); repeat constructor. Qed.

Lemma Forall_on_cache_key_resets c k ps :
  Forall (on_cache_key c k) (map EvReset ps).
Proof. induction ps; constructor; done. Qed.

Lemma Forall_on_cache_key_simulation self p1 p2 :
  Forall (on_cache_key (_cache self) (_cache_key self)) (simulation_events self p1 p2).
Proof.
  unfold simulation_events. apply Forall_app. split.
  - apply Forall_on_cache_key_resets.
  - induction (Z.to_nat (turns self)); constructor; done.
Qed.

Lemma Forall_on_cache_key_update self (w : World) r :
  Forall (on_cache_key (_cache self) (_cache_key self)) (update_events self w r).
Proof.
  unfold update_events.
  destruct (Q_truthy _), (update_eligible _ _); repeat constructor.
Qed.

(** C9.  The constructor computes the key from the first two players it is
    given and [turns].  Assigning to [players] and calling [play] leave the
    key and the cache of the match as they were, and every call that [play]
    makes on a cache is on that cache under that key.  So after the players
    of a match were replaced, [play] still tests, reads and writes the cache
    under the key of the players the match was constructed with. *)
Theorem cache_key_fixed_at_construction :
  (∀ p1 p2 rest turns0 game0 cache0 noise0 attrs0 (w : World),
     ∃ m, (Match_init (p1 :: p2 :: rest) turns0 game0 cache0 noise0 attrs0 w).1 = Ok m
          ∧ _cache_key m = (p1, p2, turns0)
          ∧ ∀ ps (w1 w2 : World),
              (set_players m ps w1).1 = Ok (with_players m ps)
              ∧ players (with_players m ps) = ps
              ∧ Forall (on_cache_key (_cache m) (p1, p2, turns0))
                       (play_events (with_players m ps) w2))
  ∧ (∀ self ps (w : World),
       (set_players self ps w).1 = Ok (with_players self ps)
       ∧ _cache_key (with_players self ps) = _cache_key self
       ∧ _cache (with_players self ps) = _cache self)
  ∧ (∀ self (w : World),
       match (play self w).1 with
       | Ok (_, self') =>
           _cache_key self' = _cache_key self ∧ _cache self' = _cache self
           ∧ players self' = players self
       | Raise _ => True
       end)
  ∧ (∀ self (w : World),
       Forall (on_cache_key (_cache self) (_cache_key self)) (play_events self w)).
Proof.
  assert (Hev : ∀ self (w : World),
            Forall (on_cache_key (_cache self) (_cache_key self)) (play_events self w)).
  { intros self w. unfold play_events, play_world.
    destruct (play_cases self w) as [p1 p2 rest Hps _ ->| _ _ ->|r Hf _ ->]; simpl;
      erewrite new_events_app by reflexivity.
    - rewrite !Forall_app.
      auto using Forall_on_cache_key_decision, Forall_on_cache_key_simulation,
        Forall_on_cache_key_update.
    - rewrite !Forall_app.
      auto using Forall_on_cache_key_decision, Forall_on_cache_key_resets.
    - repeat constructor. }
  split; [|split; [|split]]; [| | |done].
  - intros p1 p2 rest turns0 game0 cache0 noise0 attrs0 w.
    rewrite Match_init_spec. eexists. split; [reflexivity|]. split; [done|].
    intros ps w1 w2. rewrite set_players_spec. repeat split.
    exact (Hev (with_players (mkMatch [] turns0 (p1, p2, turns0) noise0
                  (init_game game0) (init_cache cache0 w)
                  (init_attrs turns0 game0 noise0 attrs0) (p1 :: p2 :: rest)) ps) w2).
  - intros self ps w. by rewrite set_players_spec.
  - intros self w.
    destruct (play_cases self w) as [p1 p2 rest Hps _ ->| _ _ ->|r Hf _ ->]; done.
Qed.

Lemma filter_set_match_attributes attrs ps :
  List.filter is_set_match_attributes (map (λ p, EvSetMatchAttributes p attrs) ps)
  = map (λ p, EvSetMatchAttributes p attrs) ps.
Proof. induction ps as [|p ps IH]; simpl; by rewrite ?IH. Qed.

Lemma Match_init_attribute_calls p1 p2 rest turns0 game0 cache0 noise0 attrs0 (w : World) :
  List.filter is_set_match_attributes
    (new_events w (Match_init (p1 :: p2 :: rest) turns0 game0 cache0 noise0 attrs0 w).2)
  = map (λ p, EvSetMatchAttributes p (init_attrs turns0 game0 noise0 attrs0))
        (p1 :: p2 :: rest).
Proof.
  rewrite Match_init_spec. cbn [snd].
  erewrite new_events_app by reflexivity.
  rewrite List.filter_app, filter_set_match_attributes.
  by destruct cache0.
Qed.

(** C10.  When the constructor is given a [match_attributes] mapping, that
    mapping is what the match stores and what every player receives through
    [set_match_attributes], at construction and at every later assignment to
    [players]: an attribute that the mapping lacks is not supplied from
    [turns], [game] or [noise].  With the empty mapping the players are
    called with no attribute at all.  (Without a mapping they receive
    [length], [game] and [noise].) *)
Theorem explicit_match_attributes_not_merged
    p1 p2 rest turns0 game0 cache0 noise0 (attrs : Attrs) (w : World) :
  (∃ m, (Match_init (p1 :: p2 :: rest) turns0 game0 cache0 noise0 (Some attrs) w).1
          = Ok m
        ∧ match_attributes m = attrs
        ∧ (∀ ps (w1 : World),
             new_events w1 (set_players m ps w1).2
             = map (λ p, EvSetMatchAttributes p attrs) ps))
  ∧ List.filter is_set_match_attributes
      (new_events w
         (Match_init (p1 :: p2 :: rest) turns0 game0 cache0 noise0 (Some attrs) w).2)
    = map (λ p, EvSetMatchAttributes p attrs) (p1 :: p2 :: rest)
  ∧ heap (Match_init (p1 :: p2 :: rest) turns0 game0 cache0 noise0 (Some attrs) w).2
    = push_attributes attrs (p1 :: p2 :: rest) (heap w)
  ∧ List.filter is_set_match_attributes
      (new_events w
         (Match_init (p1 :: p2 :: rest) turns0 game0 cache0 noise0 (Some ∅) w).2)
    = map (λ p, EvSetMatchAttributes p ∅) (p1 :: p2 :: rest)
  ∧ (∀ name : string, (∅ : Attrs) !! name = None)
  ∧ List.filter is_set_match_attributes
      (new_events w
         (Match_init (p1 :: p2 :: rest) turns0 game0 cache0 noise0 None w).2)
    = map (λ p, EvSetMatchAttributes p
                  {[ "length" := AInt turns0; "game" := AGame (init_game game0);
                     "noise" := ANum noise0 ]})
          (p1 :: p2 :: rest).
Proof.
  split; [|split; [|split; [|split; [|split]]]].
  - rewrite Match_init_spec. eexists. split; [reflexivity|]. split; [done|].
    intros ps w1. rewrite set_players_spec. cbn [snd].
    by erewrite new_events_app by reflexivity.
  - apply Match_init_attribute_calls.
  - by rewrite Match_init_spec.
  - apply Match_init_attribute_calls.
  - intros name. apply lookup_empty.
  - apply Match_init_attribute_calls.
Qed.

(** ** Further properties of the engine *)

Lemma not_stochastic_eligible self (w : World) :
  truthy (_stochastic self) = false →
  update_eligible self w = mutable (caches w !!! _cache self).
Proof.
  unfold _stochastic, update_eligible. rewrite truthy_is_stochastic.
  intros [-> ->]%orb_false_iff. simpl. by rewrite andb_true_r.
Qed.

Lemma store_record_mutable c k r (cs : gmap CacheId DeterministicCache) c' :
  mutable (store_record c k r cs !!! c') = mutable (cs !!! c').
Proof.
  unfold store_record. destruct (decide (c = c')) as [->|Hne].
  - by rewrite lookup_total_insert_eq.
  - by rewrite lookup_total_insert_ne.
Qed.

Lemma store_record_entries_ne c k r (cs : gmap CacheId DeterministicCache) c' k' :
  (c', k') ≠ (c, k) →
  entries (store_record c k r cs !!! c') !! k' = entries (cs !!! c') !! k'.
Proof.
  intros Hne. unfold store_record. destruct (decide (c = c')) as [->|Hc].
  - rewrite lookup_total_insert_eq; simpl.
    apply lookup_insert_ne. congruence.
  - by rewrite lookup_total_insert_ne.
Qed.

Lemma filter_update_events (f : Event → bool) self (w : World) r :
  (∀ c, f (EvCacheMutable c) = false) → (∀ c k r, f (EvCacheSet c k r) = false) →
  List.filter f (update_events self w r) = [].
Proof.
  intros Hm Hs. unfold update_events.
  destruct (Q_truthy _), (update_eligible _ _); simpl; by rewrite ?Hm, ?Hs.
Qed.

(** X1.  A deterministic match with a mutable cache: after [play] the cache
    holds the returned record under the key of the match, and any match on
    the same cache with the same key that is not stochastic (the same match
    played again, or another instance, whatever players it currently lists)
    gets that very record from its next [play], which calls no player, leaves
    the players' state and the caches as they are and only tests and reads
    the cache. *)
Theorem cached_record_replayed self (w : World) p1 p2 rest :
  players self = p1 :: p2 :: rest →
  truthy (_stochastic self) = false →
  mutable (caches w !!! _cache self) = true →
  ∃ r, (play self w).1 = Ok (r, with_result self r)
       ∧ cached_record self (play_world self w) = Some r
       ∧ ∀ other,
           _cache other = _cache self →
           _cache_key other = _cache_key self →
           truthy (_stochastic other) = false →
           (play other (play_world self w)).1 = Ok (r, with_result other r)
           ∧ heap (play_world other (play_world self w)) = heap (play_world self w)
           ∧ caches (play_world other (play_world self w))
             = caches (play_world self w)
           ∧ play_events other (play_world self w)
             = [EvCacheContains (_cache self) (_cache_key self);
                EvCacheGet (_cache self) (_cache_key self)].
Proof.
  intros Hps Hst Hmut.
  assert (Hfirst : ∃ r, (play self w).1 = Ok (r, with_result self r)
                        ∧ cached_record self (play_world self w) = Some r).
  { unfold play_world. destruct (fresh_simulation self w) eqn:Hf.
    - rewrite (play_fresh_spec _ _ _ _ _ Hps Hf).
      rewrite (not_stochastic_eligible _ _ Hst), Hmut. simpl.
      eexists. split; [reflexivity|]. by eapply cached_record_store.
    - pose proof Hf as [_ [rc Hrc]]%fresh_simulation_false.
      rewrite (play_cached_spec _ _ _ Hf Hrc). simpl. eauto. }
  destruct Hfirst as (r & Hr & Hcached). exists r. split; [done|]. split; [done|].
  intros other Hc Hk Hsto.
  assert (Hother : cached_record other (play_world self w) = Some r).
  { unfold cached_record in *. by rewrite Hc, Hk. }
  assert (Hf : fresh_simulation other (play_world self w) = false).
  { apply fresh_simulation_false. split; [done|]. by exists r. }
  destruct (play_cached_summary _ _ _ Hf Hother) as (-> & -> & -> & ->).
  by rewrite Hc, Hk.
Qed.

(** X2.  [play] never changes the [mutable] flag of a cache, never changes
    an entry other than the one under the key of the match in the cache of
    the match, and neither creates a cache nor passes match attributes to a
    player. *)
Theorem play_frames_cache self (w : World) :
  (∀ c, mutable (caches (play_world self w) !!! c) = mutable (caches w !!! c))
  ∧ (∀ c k, (c, k) ≠ (_cache self, _cache_key self) →
       entries (caches (play_world self w) !!! c) !! k
       = entries (caches w !!! c) !! k)
  ∧ List.filter is_setup_call (play_events self w) = [].
Proof.
  unfold play_events, play_world.
  destruct (play_cases self w) as [p1 p2 rest Hps _ ->| _ _ ->|r Hf _ ->]; simpl;
    erewrite new_events_app by reflexivity.
  - split; [|split].
    + intros c. destruct (update_eligible self w); [|done].
      apply store_record_mutable.
    + intros c k Hne. destruct (update_eligible self w); [|done].
      by apply store_record_entries_ne.
    + by rewrite !List.filter_app, filter_decision_events,
        filter_simulation_events, filter_update_events.
  - split; [done|]. split; [done|].
    by rewrite List.filter_app, filter_decision_events, filter_resets.
  - done.
Qed.

(** X3.  A match on a frozen cache (its [mutable] flag is off) never writes:
    [play] leaves every cache exactly as it was, whatever the players and
    the noise. *)
Theorem frozen_cache_untouched self (w : World) :
  mutable (caches w !!! _cache self) = false →
  caches (play_world self w) = caches w
  ∧ List.filter is_cache_write (play_events self w) = [].
Proof.
  intros Hmut.
  assert (He : update_eligible self w = false).
  { unfold update_eligible. rewrite Hmut. by rewrite andb_false_r. }
  unfold play_events, play_world.
  destruct (play_cases self w) as [p1 p2 rest Hps _ ->| _ _ ->|r Hf _ ->]; simpl;
    erewrite new_events_app by reflexivity.
  - rewrite He. split; [done|].
    rewrite !List.filter_app, filter_decision_events, filter_simulation_events by done.
    unfold update_events. rewrite He. by destruct (Q_truthy _).
  - split; [done|].
    by rewrite List.filter_app, filter_decision_events, filter_resets.
  - done.
Qed.

(** X4.  [play] raises exactly when the match lists fewer than two players
    and a simulation is needed (the match is stochastic or its key is not in
    the cache); a cache hit succeeds whatever the list.  What it raises is
    [IndexError], after the listed players were reset and with every cache
    as it was. *)
Theorem play_raises_iff_too_few_players self (w : World) :
  ((∃ e, (play self w).1 = Raise e) ↔
     (length (players self) < 2)%nat
     ∧ (truthy (_stochastic self) = true ∨ cached_record self w = None))
  ∧ (∀ e, (play self w).1 = Raise e →
       e = IndexError
       ∧ heap (play_world self w) = reset_all (players self) (heap w)
       ∧ caches (play_world self w) = caches w
       ∧ List.filter is_player_call (play_events self w)
         = map EvReset (players self)).
Proof.
  rewrite <- fresh_simulation_true. unfold play_events, play_world.
  destruct (play_cases self w) as [p1 p2 rest Hps Hf ->|Hlen Hf ->|r Hf _ ->]; simpl.
  - split; [|intros e [=]]. split.
    + intros [e [=]].
    + intros [Hlen _]. rewrite Hps in Hlen. simpl in Hlen. lia.
  - split; [split; eauto|]. intros e [= <-].
    erewrite new_events_app by reflexivity.
    rewrite List.filter_app, filter_player_call_decision, filter_player_call_resets.
    done.
  - split; [|intros e [=]]. split.
    + intros [e [=]].
    + intros [_ Hfresh]. congruence.
Qed.

Lemma play_fresh_player_calls self (w : World) p1 p2 rest :
  players self = p1 :: p2 :: rest →
  fresh_simulation self w = true →
  (play self w).1 = Ok (simulated_record self p1 p2 (heap w),
                        with_result self (simulated_record self p1 p2 (heap w)))
  ∧ heap (play_world self w) = simulated_heap self p1 p2 (heap w)
  ∧ List.filter is_player_call (play_events self w) = simulation_events self p1 p2.
Proof.
  intros Hps Hf. unfold play_events, play_world.
  rewrite (play_fresh_spec _ _ _ _ _ Hps Hf); simpl.
  erewrite new_events_app by reflexivity.
  by rewrite !List.filter_app, filter_player_call_decision,
    filter_player_call_simulation, filter_player_call_update, app_nil_r.
Qed.

(** X5.  A match constructed without a cache gets a cache of its own: one
    that did not exist before, empty and mutable, while the caches that
    existed are left as they were.  The key of the match is therefore not in
    its cache, and its first [play] simulates.  A match constructed with a
    cache uses that cache, and no cache is created. *)
Theorem Match_init_cache_ownership
    p1 p2 rest turns0 game0 noise0 attrs0 (w : World) :
  (∃ m, (Match_init (p1 :: p2 :: rest) turns0 game0 None noise0 attrs0 w).1 = Ok m
        ∧ (_cache m ∉ dom (caches w))
        ∧ (∀ c, c ∈ dom (caches w) →
             caches (Match_init (p1 :: p2 :: rest) turns0 game0 None
                                noise0 attrs0 w).2 !! c
             = caches w !! c)
        ∧ caches (Match_init (p1 :: p2 :: rest) turns0 game0 None
                             noise0 attrs0 w).2 !! _cache m
          = Some new_DeterministicCache
        ∧ List.filter is_player_call
            (play_events m (Match_init (p1 :: p2 :: rest) turns0 game0 None
                                       noise0 attrs0 w).2)
          = map EvReset (p1 :: p2 :: rest)
            ++ repeat (EvPlay p1 p2 noise0) (Z.to_nat turns0))
  ∧ (∀ c, ∃ m,
       (Match_init (p1 :: p2 :: rest) turns0 game0 (Some c) noise0 attrs0 w).1 = Ok m
       ∧ _cache m = c
       ∧ caches (Match_init (p1 :: p2 :: rest) turns0 game0 (Some c)
                            noise0 attrs0 w).2
         = caches w).
Proof.
  split.
  - rewrite Match_init_spec. cbn [fst snd caches].
    eexists. split; [reflexivity|]. cbn [_cache init_cache].
    pose proof (is_fresh (dom (caches w))) as Hfresh.
    split; [done|]. split; [|split].
    + intros c Hc. apply lookup_insert_ne. by intros <-.
    + apply lookup_insert_eq.
    + match goal with |- context [play_events ?m ?w'] =>
        destruct (play_fresh_player_calls m w' p1 p2 rest eq_refl) as (_ & _ & ->)
      end; [|done].
      apply fresh_simulation_true. right.
      unfold cached_record. cbn [_cache caches].
      by rewrite lookup_total_insert_eq.
  - intros c. rewrite Match_init_spec. eexists. done.
Qed.

(** X6.  A match whose players list has more than two players: a fresh
    [play] resets every listed player, in order, but only the first calls
    [play], against the second; the record pairs the histories of the first
    two, and the others take no part in it. *)
Theorem surplus_players_only_reset self (w : World) p1 p2 rest :
  players self = p1 :: p2 :: rest →
  truthy (_stochastic self) = true ∨ cached_record self w = None →
  let h' := play_turns (Z.to_nat (turns self)) p1 p2 (noise self)
                       (reset_all (p1 :: p2 :: rest) (heap w)) in
  (play self w).1
    = Ok (zip (Player_history p1 h') (Player_history p2 h'),
          with_result self (zip (Player_history p1 h') (Player_history p2 h')))
  ∧ heap (play_world self w) = h'
  ∧ List.filter is_player_call (play_events self w)
    = map EvReset (p1 :: p2 :: rest)
      ++ repeat (EvPlay p1 p2 (noise self)) (Z.to_nat (turns self)).
Proof.
  intros Hps Hf%fresh_simulation_true h'.
  destruct (play_fresh_player_calls self w p1 p2 rest Hps Hf) as (-> & -> & ->).
  unfold simulated_record, simulated_heap, simulation_events, h'.
  by rewrite Hps.
Qed.

(** X7.  [play] overwrites the stored result and never reads it: a match
    that already holds a result behaves in [play] exactly like the same match
    holding any other result, or none. *)
Theorem play_ignores_stored_result self r0 (w : World) :
  play (with_result self r0) w = play self w.
Proof.
  destruct (play_cases self w) as [p1 p2 rest Hps Hf ->|Hlen Hf ->|r Hf Hr ->].
  - by rewrite (play_fresh_spec (with_result self r0) w p1 p2 rest Hps Hf).
  - by rewrite (play_short_spec (with_result self r0) w Hlen Hf).
  - by rewrite (play_cached_spec (with_result self r0) w r Hf Hr).
Qed.

(** X10.  For a match between two players that honour the Player contract
    (resetting both empties their histories, one call of [play] adds one
    action to each history) and whose key carries its [turns], as the
    constructor sets it: if every record in every cache has the length that
    its key asks for, then [play] returns a record of [max(turns, 0)] pairs
    and every record in every cache still has the length that its key asks
    for. *)
Theorem record_lengths_invariant self (w : World) p1 p2 :
  players self = [p1; p2] →
  (_cache_key self).2 = turns self →
  resets_clear p1 p2 →
  appends_one p1 p2 (noise self) →
  records_match_keys (caches w) →
  (∃ r, (play self w).1 = Ok (r, with_result self r)
        ∧ length r = Z.to_nat (turns self)
        ∧ Z.of_nat (length r) = Z.max (turns self) 0)
  ∧ records_match_keys (caches (play_world self w)).
Proof.
  intros Hps Hkey Hreset Happ Hinv. unfold play_world.
  destruct (fresh_simulation self w) eqn:Hf.
  - rewrite (play_fresh_spec _ _ _ _ _ Hps Hf); simpl.
    pose proof (simulated_record_length self p1 p2 (heap w) Hps Hreset Happ) as Hlen.
    split; [eexists; split; [reflexivity|split; [done|lia]]|].
    destruct (update_eligible self w); [|done].
    intros c k r Hr.
    destruct (decide ((c, k) = (_cache self, _cache_key self))) as [[= -> ->]|Hne].
    + unfold store_record in Hr. rewrite lookup_total_insert_eq in Hr. simpl in Hr.
      rewrite lookup_insert_eq in Hr. injection Hr as <-. by rewrite Hkey.
    + rewrite store_record_entries_ne in Hr by done. by eapply Hinv.
  - pose proof Hf as [_ [rc Hrc]]%fresh_simulation_false.
    rewrite (play_cached_spec _ _ _ Hf Hrc); simpl. split; [|done].
    exists rc. split; [done|].
    pose proof (Hinv _ _ _ Hrc) as Hlen. rewrite Hkey in Hlen. split; [done|lia].
Qed.

End EngineFacts.

(** ** The engine on the small population *)

#[local] Existing Instance population_ops.

Lemma population_resets_clear p1 p2 : resets_clear p1 p2.
Proof.
  intros h. unfold Player_history, Player_reset; simpl. unfold history_of; simpl.
  rewrite lookup_insert_eq. split; [|done].
  destruct (decide (p2 = p1)) as [->|Hne].
  - by rewrite lookup_insert_eq.
  - by rewrite lookup_insert_ne, lookup_insert_eq.
Qed.

Lemma population_appends_one p1 p2 q : p1 ≠ p2 → appends_one p1 p2 q.
Proof.
  intros Hne h. unfold Player_history, Player_play; simpl.
  unfold population_play, history_of, update_history; simpl.
  rewrite lookup_insert_eq, lookup_insert_ne, lookup_insert_eq by done; simpl.
  rewrite !length_app. simpl. unfold history_of. simpl.
  rewrite lookup_insert_ne by done. lia.
Qed.

Example Match_init_coop_vs_defect :
  (Match_init [0%nat; 1%nat] 2 None None 0 None initial_world).1 = Ok coop_vs_defect.
Proof. vm_compute. reflexivity. Qed.

Example play_coop_vs_defect :
  (play coop_vs_defect initial_world).1
  = Ok ([(C, D); (C, D)], with_result coop_vs_defect [(C, D); (C, D)]).
Proof. vm_compute. reflexivity. Qed.

Example play_again_is_cache_hit :
  let w1 := play_world coop_vs_defect started_world in
  let m1 := with_result coop_vs_defect [(C, D); (C, D)] in
  (play m1 w1).1 = Ok ([(C, D); (C, D)], m1)
  ∧ play_events m1 w1 = [EvCacheContains 0%nat (0%nat, 1%nat, 2);
                         EvCacheGet 0%nat (0%nat, 1%nat, 2)].
Proof. vm_compute. split; reflexivity. Qed.

(** C1 on the match between the cooperator and the defector. *)
Lemma play_fresh_or_cached_witness :
  players coop_vs_defect = [0%nat; 1%nat]
  ∧ (play coop_vs_defect started_world).1
    = Ok ([(C, D); (C, D)], with_result coop_vs_defect [(C, D); (C, D)])
  ∧ List.filter is_player_call (play_events coop_vs_defect started_world)
    = [EvReset 0%nat; EvReset 1%nat; EvPlay 0%nat 1%nat 0; EvPlay 0%nat 1%nat 0].
Proof.
  split; [reflexivity|].
  destruct (play_fresh_or_cached coop_vs_defect started_world 0%nat 1%nat eq_refl)
    as (_ & Hfresh & _).
  destruct Hfresh as (Hr & _ & Hev); [right; reflexivity|].
  split; [rewrite Hr; vm_compute; reflexivity|rewrite Hev; reflexivity].
Defined.

(** C2 on a match that has the random player. *)
Lemma stochastic_play_bypasses_cache_witness :
  (∃ p, p ∈ players coop_vs_random ∧ Player_classifier_stochastic p = true)
  ∧ List.filter is_record_access (play_events coop_vs_random started_world) = []
  ∧ caches (play_world coop_vs_random started_world) = caches started_world.
Proof.
  assert (H : ∃ p, p ∈ players coop_vs_random ∧ Player_classifier_stochastic p = true).
  { exists 3%nat. split; [|reflexivity]. apply list_elem_of_In. simpl. tauto. }
  split; [exact H|].
  apply (stochastic_play_bypasses_cache coop_vs_random started_world). right. exact H.
Defined.

(** C3 on the match between the cooperator and the defector. *)
Lemma cache_written_iff_eligible_witness :
  players coop_vs_defect = [0%nat; 1%nat]
  ∧ List.filter is_cache_write (play_events coop_vs_defect started_world)
    = [EvCacheSet 0%nat (0%nat, 1%nat, 2) [(C, D); (C, D)]]
  ∧ cached_record coop_vs_defect (play_world coop_vs_defect started_world)
    = Some [(C, D); (C, D)].
Proof.
  split; [reflexivity|].
  destruct (cache_written_iff_eligible coop_vs_defect started_world 0%nat 1%nat eq_refl)
    as (_ & _ & Hfresh & _ & _ & Heligible).
  destruct (Hfresh eq_refl) as (_ & Hev & _).
  split; [rewrite Hev; vm_compute; reflexivity|].
  destruct (Heligible eq_refl) as (r' & Hr' & Hc).
  rewrite Hc. vm_compute in Hr'. by injection Hr' as <-.
Defined.

(** C4 with "noise > 0" fails on a negative noise: the constructor builds
    this match, no player of it is classified stochastic and its noise is not
    above zero, and yet it is classified stochastic. *)
Lemma negative_noise_is_stochastic :
  (Match_init [0%nat; 1%nat] 2 None None (-1 # 2) None initial_world).1
    = Ok negative_noise_match
  ∧ ¬ (truthy (_stochastic negative_noise_match) = true ↔
         (0 < noise negative_noise_match)%Q
         ∨ ∃ p, p ∈ players negative_noise_match
                ∧ Player_classifier_stochastic p = true).
Proof.
  split; [vm_compute; reflexivity|].
  intros [Hto _]. destruct (Hto eq_refl) as [Hlt|(p & Hin & Hp)].
  - vm_compute in Hlt. discriminate.
  - apply list_elem_of_In in Hin. simpl in Hin.
    destruct Hin as [<-|[<-|[]]]; vm_compute in Hp; discriminate.
Qed.

(** C5 with a rejecting constructor fails: the constructor accepts a
    negative number of turns, a negative noise and a noise above one. *)
Lemma Match_init_accepts_invalid :
  (Match_init [0%nat; 1%nat] (-1) None None 0 None initial_world).1
    = Ok negative_turns_match
  ∧ (Match_init [0%nat; 1%nat] 2 None None (-1 # 2) None initial_world).1
    = Ok negative_noise_match
  ∧ (Match_init [0%nat; 1%nat] 2 None None (3 # 2) None initial_world).1
    = Ok excessive_noise_match
  ∧ turns negative_turns_match < 0
  ∧ (noise negative_noise_match < 0)%Q
  ∧ (1 < noise excessive_noise_match)%Q.
Proof. vm_compute. repeat split; reflexivity. Qed.

(** C6 without a bound on [turns] fails on a negative number of turns:
    resetting these two players empties their histories, each call of [play]
    on them adds one action to each history and the cache is empty, and yet
    the record has no pair while [turns] is [-1]. *)
Lemma negative_turns_record_length :
  players negative_turns_match = [0%nat; 1%nat]
  ∧ resets_clear 0%nat 1%nat
  ∧ appends_one 0%nat 1%nat (noise negative_turns_match)
  ∧ cached_record negative_turns_match started_world = None
  ∧ (play negative_turns_match started_world).1
    = Ok ([], with_result negative_turns_match [])
  ∧ Z.of_nat (length (result (with_result negative_turns_match [])))
    ≠ turns negative_turns_match
  ∧ Z.of_nat (length (result (with_result negative_turns_match [])))
    ≠ Match_len (with_result negative_turns_match []).
Proof.
  split; [reflexivity|].
  split; [apply population_resets_clear|].
  split; [by apply population_appends_one|].
  vm_compute. repeat split; (reflexivity || discriminate).
Qed.

(** C6, amended, on the match between the cooperator and the defector. *)
Lemma record_length_is_turns_witness :
  players coop_vs_defect = [0%nat; 1%nat]
  ∧ 0 ≤ turns coop_vs_defect
  ∧ resets_clear 0%nat 1%nat
  ∧ appends_one 0%nat 1%nat (noise coop_vs_defect)
  ∧ cached_record coop_vs_defect started_world = None
  ∧ ∃ r, (play coop_vs_defect started_world).1 = Ok (r, with_result coop_vs_defect r)
         ∧ Z.of_nat (length r) = 2.
Proof.
  assert (Hturns : 0 ≤ turns coop_vs_defect) by (vm_compute; discriminate).
  assert (Happ : appends_one 0%nat 1%nat (noise coop_vs_defect))
    by (by apply population_appends_one).
  assert (Hnone : cached_record coop_vs_defect started_world = None)
    by (vm_compute; reflexivity).
  do 5 (split; [done || apply population_resets_clear|]).
  destruct (record_length_is_turns coop_vs_defect started_world 0%nat 1%nat
              eq_refl Hturns (population_resets_clear 0%nat 1%nat) Happ)
    as (r & Hr & _ & Hlen & _).
  - intros rc Hrc. rewrite Hnone in Hrc. discriminate.
  - exists r. split; [exact Hr|exact Hlen].
Defined.

(** C7 on three matches: never played, tied, and won by the defector. *)
Lemma winner_sentinels_witness :
  players coop_vs_defect = [0%nat; 1%nat]
  ∧ winner coop_vs_defect started_world = (Ok W_None, started_world)
  ∧ winner coop_vs_coop_played started_world = (Ok W_False, started_world)
  ∧ winner (with_result coop_vs_defect [(C, D); (C, D)]) started_world
    = (Ok (W_Player 1%nat), started_world).
Proof.
  split; [reflexivity|].
  destruct (winner_sentinels coop_vs_defect started_world 0%nat 1%nat eq_refl)
    as (Hnone & _).
  destruct (winner_sentinels coop_vs_coop_played started_world 0%nat 4%nat eq_refl)
    as (_ & Htie & _).
  destruct (winner_sentinels (with_result coop_vs_defect [(C, D); (C, D)])
              started_world 0%nat 1%nat eq_refl)
    as (_ & _ & _ & Hsecond & _).
  split; [apply Hnone; reflexivity|].
  split; [apply Htie; [discriminate|vm_compute; reflexivity]|].
  apply Hsecond. vm_compute. reflexivity.
Defined.

(** C8 on a match of no turns between the cooperator and the defector. *)
Lemma zero_turns_empty_and_cacheable_witness :
  players zero_turns_match = [0%nat; 1%nat]
  ∧ turns zero_turns_match = 0
  ∧ _cache_key zero_turns_match = (0%nat, 1%nat, 0)
  ∧ resets_clear 0%nat 1%nat
  ∧ cached_record zero_turns_match started_world = None
  ∧ (play zero_turns_match started_world).1
    = Ok ([], with_result zero_turns_match [])
  ∧ cached_record zero_turns_match (play_world zero_turns_match started_world)
    = Some []
  ∧ play_events (with_result zero_turns_match [])
                (play_world zero_turns_match started_world)
    = [EvCacheContains 0%nat (0%nat, 1%nat, 0); EvCacheGet 0%nat (0%nat, 1%nat, 0)].
Proof.
  assert (Hnone : cached_record zero_turns_match started_world = None)
    by (vm_compute; reflexivity).
  do 5 (split; [done || apply population_resets_clear|]).
  destruct (zero_turns_empty_and_cacheable zero_turns_match started_world 0%nat 1%nat
              eq_refl eq_refl eq_refl (population_resets_clear 0%nat 1%nat))
    as (Hr & _ & Hwrite & _ & Hagain).
  - intros rc Hrc. rewrite Hnone in Hrc. discriminate.
  - split; [exact Hr|].
    split; [apply Hwrite; reflexivity|].
    apply Hagain; reflexivity.
Defined.

(** A match constructed for the cooperator and the defector whose players
    are then replaced by two cooperators: the record of the two cooperators
    is written under the key of the original pair. *)
Example replaced_players_keep_key :
  let m := with_players coop_vs_defect [0%nat; 4%nat] in
  (set_players coop_vs_defect [0%nat; 4%nat] started_world).1 = Ok m
  ∧ (play m started_world).1 = Ok ([(C, C); (C, C)], with_result m [(C, C); (C, C)])
  ∧ List.filter is_cache_write (play_events m started_world)
    = [EvCacheSet 0%nat (0%nat, 1%nat, 2) [(C, C); (C, C)]].
Proof. vm_compute. repeat split; reflexivity. Qed.

(** The constructor with an empty [match_attributes] mapping: both players
    are called with no attribute. *)
Example empty_match_attributes :
  trace (Match_init [0%nat; 1%nat] 2 None None 0 (Some ∅) initial_world).2
  = [EvCacheNew 0%nat; EvSetMatchAttributes 0%nat ∅; EvSetMatchAttributes 1%nat ∅].
Proof. vm_compute. reflexivity. Qed.

(** A frozen cache is left alone, and a noisy match never looks at it. *)
Example frozen_cache_not_written :
  let w := @mkWorld population_ops empty_population
                    {[ 0%nat := mkCache false ∅ ]} [] in
  caches (play_world coop_vs_defect w) = caches w
  ∧ play_events coop_vs_defect w
    = [EvCacheContains 0%nat (0%nat, 1%nat, 2); EvReset 0%nat; EvReset 1%nat;
       EvPlay 0%nat 1%nat 0; EvPlay 0%nat 1%nat 0; EvCacheMutable 0%nat]
  ∧ play_events excessive_noise_match w
    = [EvReset 0%nat; EvReset 1%nat;
       EvPlay 0%nat 1%nat (3 # 2); EvPlay 0%nat 1%nat (3 # 2)].
Proof. vm_compute. repeat split; reflexivity. Qed.

(** ** The Stalker strategy *)








(** A Stalker constructed under the standard game that meets an opponent
    playing C, D, D, D, C: after these five rounds its recorded payoffs and
    the payoff of the fifth round average to exactly 2, and its sixth
    decision gives no action. *)
Example stalker_reaches_no_action :
  Stalker.init (default_match_attributes 10 default_Game 0)
    = Stalker.Returns stalker_at_start
  ∧ Stalker.rounds stalker_at_start [] [C; D; D; D; C] D
    = Some (stalker_after_five, [C; D; D; D; C])
  ∧ (Stalker.strategy stalker_after_five [C; D; D; D; C] D).1 = Stalker.Returns None.
Proof. vm_compute. repeat split; reflexivity. Qed.


(** X1 on the match between the cooperator and the defector, played again
    and shared with a match that now lists two cooperators. *)
Lemma cached_record_replayed_witness :
  players coop_vs_defect = [0%nat; 1%nat]
  ∧ truthy (_stochastic coop_vs_defect) = false
  ∧ mutable (caches started_world !!! _cache coop_vs_defect) = true
  ∧ (play (with_result coop_vs_defect [(C, D); (C, D)])
          (play_world coop_vs_defect started_world)).1
    = Ok ([(C, D); (C, D)], with_result coop_vs_defect [(C, D); (C, D)])
  ∧ (play (with_players coop_vs_defect [0%nat; 4%nat])
          (play_world coop_vs_defect started_world)).1
    = Ok ([(C, D); (C, D)],
          with_result (with_players coop_vs_defect [0%nat; 4%nat]) [(C, D); (C, D)]).
Proof.
  do 3 (split; [reflexivity|]).
  destruct (cached_record_replayed coop_vs_defect started_world 0%nat 1%nat []
              eq_refl eq_refl eq_refl) as (r & Hr & _ & Hother).
  assert (r = [(C, D); (C, D)]) as ->.
  { vm_compute in Hr. by injection Hr as <-. }
  split.
  - by destruct (Hother (with_result coop_vs_defect [(C, D); (C, D)])
                   eq_refl eq_refl eq_refl) as (-> & _).
  - by destruct (Hother (with_players coop_vs_defect [0%nat; 4%nat])
                   eq_refl eq_refl eq_refl) as (-> & _).
Defined.

(** X3 on the match between the cooperator and the defector. *)
Lemma frozen_cache_untouched_witness :
  mutable (caches frozen_world !!! _cache coop_vs_defect) = false
  ∧ caches (play_world coop_vs_defect frozen_world) = caches frozen_world
  ∧ List.filter is_cache_write (play_events coop_vs_defect frozen_world) = [].
Proof.
  split; [reflexivity|].
  apply (frozen_cache_untouched coop_vs_defect frozen_world). reflexivity.
Defined.

(** X6 on a match that lists the cooperator, the defector and a third
    player. *)
Lemma surplus_players_only_reset_witness :
  players three_players_match = [0%nat; 1%nat; 2%nat]
  ∧ cached_record three_players_match started_world = None
  ∧ (play three_players_match started_world).1
    = Ok ([(C, D); (C, D)], with_result three_players_match [(C, D); (C, D)])
  ∧ List.filter is_player_call (play_events three_players_match started_world)
    = [EvReset 0%nat; EvReset 1%nat; EvReset 2%nat;
       EvPlay 0%nat 1%nat 0; EvPlay 0%nat 1%nat 0].
Proof.
  assert (Hnone : cached_record three_players_match started_world = None)
    by (vm_compute; reflexivity).
  do 2 (split; [done|]).
  destruct (surplus_players_only_reset three_players_match started_world
              0%nat 1%nat [2%nat] eq_refl (or_intror Hnone)) as (Hr & _ & Hev).
  split; [rewrite Hr; vm_compute; reflexivity|rewrite Hev; reflexivity].
Defined.

(** A match that lists a single player raises when it has to simulate. *)
Example play_single_player_raises :
  (play (with_players coop_vs_defect [0%nat]) started_world).1 = Raise IndexError
  ∧ play_events (with_players coop_vs_defect [0%nat]) started_world
    = [EvCacheContains 0%nat (0%nat, 1%nat, 2); EvReset 0%nat].
Proof. vm_compute. split; reflexivity. Qed.

(** X9.  The edges of [Stalker.strategy].  With an empty history it returns
    C and looks at neither the opponent nor the match attributes.  With a
    history of its own it raises [KeyError] when the match attributes have no
    game, [IndexError] when they have one and the opponent has no history,
    and [AttributeError] when both have a history and the [game] attribute is
    not a game; in each case the Stalker is left as it was. *)
Theorem Stalker_strategy_edge_cases self opponent_history random_choice :
  (Stalker.history self = [] →
     Stalker.strategy self opponent_history random_choice
     = (Stalker.Returns (Some C), self))
  ∧ (Stalker.history self ≠ [] →
     Stalker.match_attributes self !! "game" = None →
     Stalker.strategy self opponent_history random_choice
     = (Stalker.Raises Stalker.KeyError, self))
  ∧ (Stalker.history self ≠ [] →
     is_Some (Stalker.match_attributes self !! "game") →
     opponent_history = [] →
     Stalker.strategy self opponent_history random_choice
     = (Stalker.Raises Stalker.IndexError, self))
  ∧ (∀ v, Stalker.history self ≠ [] → opponent_history ≠ [] →
     Stalker.match_attributes self !! "game" = Some v →
     (∀ g, v ≠ AGame g) →
     Stalker.strategy self opponent_history random_choice
     = (Stalker.Raises Stalker.AttributeError, self)).
Proof.
  unfold Stalker.strategy, Stalker.score_last_round.
  split; [by intros ->|].
  assert (Hlast : ∀ l : list Action, l ≠ [] → is_Some (last l)).
  { intros l Hl. induction l as [|a [|b l] IH]; [done|by eexists|].
    apply IH. done. }
  assert (Hdec : Stalker.history self ≠ [] →
                 bool_decide (length (Stalker.history self) = 0%nat) = false).
  { intros Hne. apply bool_decide_eq_false_2.
    destruct (Stalker.history self); [done|simpl; lia]. }
  split; [|split].
  - intros Hne Hg. by rewrite Hdec, Hg.
  - intros Hne [v Hg] ->. rewrite Hdec, Hg by done.
    by destruct (Hlast _ Hne) as [mine ->].
  - intros v Hne Hopp Hg Hv. rewrite Hdec, Hg by done.
    destruct (Hlast _ Hne) as [mine ->]. destruct (Hlast _ Hopp) as [theirs ->].
    destruct v as [z|q|g]; try done. by destruct (Hv g).
Qed.

Lemma records_match_keys_started : records_match_keys (caches started_world).
Proof.
  intros c k r. simpl.
  destruct (decide (c = 0%nat)) as [->|Hne].
  - by rewrite lookup_total_singleton_eq.
  - by rewrite lookup_total_singleton_ne.
Qed.

(** X10 on the match between the cooperator and the defector. *)
Lemma record_lengths_invariant_witness :
  players coop_vs_defect = [0%nat; 1%nat]
  ∧ (_cache_key coop_vs_defect).2 = turns coop_vs_defect
  ∧ resets_clear 0%nat 1%nat
  ∧ appends_one 0%nat 1%nat (noise coop_vs_defect)
  ∧ records_match_keys (caches started_world)
  ∧ records_match_keys (caches (play_world coop_vs_defect started_world)).
Proof.
  assert (Happ : appends_one 0%nat 1%nat (noise coop_vs_defect))
    by (by apply population_appends_one).
  do 5 (split; [done || apply population_resets_clear
                || apply records_match_keys_started|]).
  apply (record_lengths_invariant coop_vs_defect started_world 0%nat 1%nat
           eq_refl eq_refl (population_resets_clear 0%nat 1%nat) Happ
           records_match_keys_started).
Defined.
